(** * dbip-to-psql: the DB-IP to PostgreSQL batch import, embedded and verified

    The development follows [scripts/dbip-to-psql.py].  A Python [str] is
    represented by the bytes of its UTF-8 encoding (a Rocq [string]): every
    operation the script applies to its text (removing ['], stripping the
    final newline, splitting on [,] and on the quote character, looking for
    [.], dropping what ASCII cannot encode, concatenation) acts on ASCII
    code points, and UTF-8 encodes a code point as a single byte below 128
    exactly when it is ASCII, so each operation commutes with the encoding. *)

From Stdlib Require Import ZArith List Ascii String Bool Lia.
From stdpp Require Import base strings gmap list pretty.

Local Open Scope Z_scope.

(** ** Text *)

Module Text.

Definition dquote : ascii := "034"%char.
Definition squote : ascii := "'"%char.
Definition newline : ascii := "010"%char.
Definition creturn : ascii := "013"%char.
Definition comma : ascii := ","%char.
Definition dot : ascii := "."%char.

Definition ascii_eqb (a b : ascii) : bool := Ascii.eqb a b.

(** [c in s] for a one-character [c]. *)
Fixpoint contains (c : ascii) (s : string) : bool :=
  match s with
  | EmptyString => false
  | String a s' => ascii_eqb a c || contains c s'
  end.

(** [s.replace(c, empty)] for a one-character [c]. *)
Fixpoint remove_char (c : ascii) (s : string) : string :=
  match s with
  | EmptyString => EmptyString
  | String a s' =>
      if ascii_eqb a c then remove_char c s' else String a (remove_char c s')
  end.

(** [s.rstrip(c)] for a one-character [c]: every trailing [c] goes. *)
Fixpoint rstrip (c : ascii) (s : string) : string :=
  match s with
  | EmptyString => EmptyString
  | String a s' =>
      match rstrip c s' with
      | EmptyString => if ascii_eqb a c then EmptyString else String a EmptyString
      | t => String a t
      end
  end.

(** A byte is ASCII when its top bit is clear. *)
Definition is_ascii (a : ascii) : bool :=
  match a with Ascii _ _ _ _ _ _ _ b7 => negb b7 end.

(** [s.encode('ascii', 'ignore').decode('ascii')]: what ASCII cannot
    encode is left out, the rest is kept in order. *)
Fixpoint encode_ascii_ignore (s : string) : string :=
  match s with
  | EmptyString => EmptyString
  | String a s' =>
      if is_ascii a then String a (encode_ascii_ignore s')
      else encode_ascii_ignore s'
  end.

(** The characters of [s] satisfy [p]. *)
Fixpoint all_chars (p : ascii -> bool) (s : string) : bool :=
  match s with
  | EmptyString => true
  | String a s' => p a && all_chars p s'
  end.

Definition no_squote (s : string) : bool :=
  all_chars (fun a => negb (ascii_eqb a squote)) s.

(** [s += c] *)
Definition snoc (s : string) (c : ascii) : string :=
  s +:+ String c EmptyString.

End Text.

(** ** The CSV reader

    [csv.reader] over the one line, with [,] for delimiter and the double
    quote for quote character, and with the other
    parameters of the default dialect (doubled quotes, no escape character,
    initial spaces kept, not strict), as the state machine of CPython's
    [_csv] module.  The two escape states are unreachable without an escape
    character and are left out. *)

Module Csv.
Import Text.

Inductive parser_state :=
| START_RECORD | START_FIELD | IN_FIELD | IN_QUOTED_FIELD
| QUOTE_IN_QUOTED_FIELD | EAT_CRNL.

Record reader := {
  state : parser_state;
  field : string;          (* the field being collected *)
  fields : list string     (* the fields saved so far *)
}.

Definition delimiter : ascii := comma.
Definition quotechar : ascii := dquote.

(** The reader refuses a field of more than [field_limit] characters
    (counted here in bytes of the encoding). *)
Definition field_limit : N := 131072.

Definition parse_reset : reader :=
  {| state := START_RECORD; field := EmptyString; fields := [] |}.

Definition parse_save_field (r : reader) (st : parser_state) : reader :=
  {| state := st; field := EmptyString; fields := fields r ++ [field r] |}.

Definition parse_add_char (r : reader) (st : parser_state) (c : ascii)
  : option reader :=
  if (field_limit <=? N.of_nat (String.length (field r)))%N then None
  else Some {| state := st; field := snoc (field r) c; fields := fields r |}.

Definition set_state (r : reader) (st : parser_state) : reader :=
  {| state := st; field := field r; fields := fields r |}.

Definition is_eol (c : ascii) : bool :=
  ascii_eqb c newline || ascii_eqb c creturn.

(** One character of the line; [None] is [csv.Error]. *)
Definition parse_process_char (r : reader) (c : ascii) : option reader :=
  let start_field :=
    if is_eol c then Some (parse_save_field r EAT_CRNL)
    else if ascii_eqb c quotechar then Some (set_state r IN_QUOTED_FIELD)
    else if ascii_eqb c delimiter then Some (parse_save_field r START_FIELD)
    else parse_add_char r IN_FIELD c in
  match state r with
  | START_RECORD =>
      if is_eol c then Some (set_state r EAT_CRNL) else start_field
  | START_FIELD => start_field
  | IN_FIELD =>
      if is_eol c then Some (parse_save_field r EAT_CRNL)
      else if ascii_eqb c delimiter then Some (parse_save_field r START_FIELD)
      else parse_add_char r IN_FIELD c
  | IN_QUOTED_FIELD =>
      if ascii_eqb c quotechar then Some (set_state r QUOTE_IN_QUOTED_FIELD)
      else parse_add_char r IN_QUOTED_FIELD c
  | QUOTE_IN_QUOTED_FIELD =>
      if ascii_eqb c quotechar then parse_add_char r IN_QUOTED_FIELD c
      else if ascii_eqb c delimiter then Some (parse_save_field r START_FIELD)
      else if is_eol c then Some (parse_save_field r EAT_CRNL)
      else parse_add_char r IN_FIELD c
  | EAT_CRNL =>
      if is_eol c then Some r else None
  end.

(** The end of the line, which the reader feeds itself after the last
    character. *)
Definition parse_process_eol (r : reader) : reader :=
  match state r with
  | START_RECORD => r
  | START_FIELD | IN_FIELD | QUOTE_IN_QUOTED_FIELD =>
      parse_save_field r START_RECORD
  | IN_QUOTED_FIELD => r
  | EAT_CRNL => set_state r START_RECORD
  end.

Fixpoint parse_chars (r : reader) (line : string) : option reader :=
  match line with
  | EmptyString => Some r
  | String c rest =>
      match parse_process_char r c with
      | Some r' => parse_chars r' rest
      | None => None
      end
  end.

(** The first record of a reader over the one line [line]: after the line
    the input is exhausted, and a quoted field still open is saved as it
    is. *)
Definition read_record (line : string) : option (list string) :=
  match parse_chars parse_reset line with
  | None => None
  | Some r =>
      let r' := parse_process_eol r in
      match state r' with
      | IN_QUOTED_FIELD => Some (fields (parse_save_field r' START_RECORD))
      | _ => Some (fields r')
      end
  end.

End Csv.

(** ** Rows

    One row of [geo_ip], with the column names of the INSERT statement.  The
    specification calls [family] the address family, [ip] the network and
    [isp_name] the source tag. *)

Record geo_row := {
  family : Z;
  ip : string;
  city : string;
  stateprov : string;
  country : string;
  latitude : string;
  longitude : string;
  timezone_offset : Z;
  timezone_name : string;
  isp_name : string
}.

(** The exceptions that can leave a call of the script. *)
Inductive exn :=
| IndexError          (* [r[i]] past the end of the record *)
| CsvError            (* [csv.Error] *)
| AddrFormatError     (* whatever [netaddr.iprange_to_cidrs] raises *)
| ProgrammingError    (* [psycopg2.ProgrammingError] *)
| DatabaseError.      (* any other exception of the driver *)

#[global] Instance exn_eq_dec : EqDecision exn.
Proof. solve_decision. Defined.

Inductive result (A : Type) :=
| Ret (a : A)
| Raise (e : exn).
Arguments Ret {A} a.
Arguments Raise {A} e.

(** A statement handed to the cursor: its text, and next to it the tuples
    that were formatted into the text (kept for the table model only; the
    script has the text alone). *)
Record statement := { stmt_text : string; stmt_rows : list geo_row }.

(** What the run leaves behind, in order: one constructor per [LOG] call of
    the script and per call into the driver. *)
Inductive event :=
| LogConnectFailed
| LogNotConnected
| LogQueryFailed
| LogInserting (count total_count line_count : Z)
| LogInsertingLast (count total_count line_count : Z)
| LogTryingAgain
| Execute (q : statement)
| Commit
| Close.

Definition sql_insert : string :=
  "INSERT INTO geo_ip (family,ip,city,stateprov,country,latitude,longitude,"
  +:+ "timezone_offset, timezone_name, isp_name) VALUES ".

Definition sql_conflict : string :=
  " ON CONFLICT (ip) DO UPDATE SET "
  +:+ " city=excluded.city, stateprov=excluded.stateprov,"
  +:+ " country=excluded.country, latitude=excluded.latitude, longitude=excluded.longitude;".

(** The tuple of the [%] operator in the loop, with the three constants of
    the text appended after it.  The indexes are evaluated in the order
    [r[5]], [r[4]], [r[3]], [r[6]], [r[7]]; each raises [IndexError] past the
    end of [r]. *)
Definition make_row (addr_type : Z) (net : string) (r : list string)
  : result geo_row :=
  match r !! 5%nat, r !! 4%nat, r !! 3%nat, r !! 6%nat, r !! 7%nat with
  | Some r5, Some r4, Some r3, Some r6, Some r7 =>
      Ret {| family := addr_type;
             ip := net;
             city := Text.encode_ascii_ignore r5;
             stateprov := Text.encode_ascii_ignore r4;
             country := r3;
             latitude := r6;
             longitude := r7;
             timezone_offset := 0;
             timezone_name := "UTC";
             isp_name := EmptyString |}
  | _, _, _, _, _ => Raise IndexError
  end.

(** ["(%d, '%s', '%s', '%s', '%s', %s, %s," % (...)] *)
Definition format_values (row : geo_row) : string :=
  "(" +:+ pretty (family row) +:+ ", '" +:+ ip row +:+ "', '" +:+ city row
  +:+ "', '" +:+ stateprov row +:+ "', '" +:+ country row +:+ "', "
  +:+ latitude row +:+ ", " +:+ longitude row +:+ ",".

(** The text the loop appends after the formatted tuple. *)
Definition values_tail : string := "0, 'UTC', '') ".

(** The text of one row, from its ten columns. *)
Definition format_row (row : geo_row) : string :=
  format_values row +:+ pretty (timezone_offset row) +:+ ", '"
  +:+ timezone_name row +:+ "', '" +:+ isp_name row +:+ "') ".

(** The text of a batch: its rows, with a comma before every row but the
    first. *)
Fixpoint format_batch (rows : list geo_row) : string :=
  match rows with
  | [] => EmptyString
  | [row] => format_row row
  | row :: rest => format_row row +:+ "," +:+ format_batch rest
  end.

(** [line.rstrip(newline).replace(quote, empty)], the quote being ['] *)
Definition stripped_line (line : string) : string :=
  Text.remove_char Text.squote (Text.rstrip Text.newline line).

(** [4 if '.' in r[0] else 6] *)
Definition addr_type (r0 : string) : Z :=
  if Text.contains Text.dot r0 then 4 else 6.

(** ** The script, over a database and a range expander

    [DB] is the state of the database server and of the connection to it;
    [cursor_execute] and [conn_commit] are the two calls of the driver the
    script makes, each returning the exception it raised, if any.
    [py_connect] is the outcome of [psycopg2.connect] and [conn.cursor()].
    [iprange_to_cidrs] is [netaddr.iprange_to_cidrs] followed by the [%s]
    formatting of each network; [None] stands for an exception. *)

Section Script.

Variable DB : Type.
Variable cursor_execute : statement -> DB -> option exn * DB.
Variable conn_commit : DB -> option exn * DB.
Variable py_connect : option exn.
Variable iprange_to_cidrs : string -> string -> option (list string).

(** The variables of [main], the handler, the database and the events so
    far.  [batch] holds the tuples formatted into [sql_values]. *)
Record state := {
  total_count : Z;
  count : Z;
  line_count : Z;
  sql_values : string;
  batch : list geo_row;
  cursor : bool;
  store : DB;
  trace : list event
}.

Definition M (A : Type) : Type := state -> result A * state.

Definition ret {A} (a : A) : M A := fun s => (Ret a, s).
Definition raise {A} (e : exn) : M A := fun s => (Raise e, s).
Definition bind {A B} (m : M A) (k : A -> M B) : M B :=
  fun s => match m s with
           | (Ret a, s') => k a s'
           | (Raise e, s') => (Raise e, s')
           end.
Definition get : M state := fun s => (Ret s, s).
Definition modify (f : state -> state) : M unit := fun s => (Ret tt, f s).

(** [try: m except: h] *)
Definition try_except {A} (m : M A) (h : exn -> M A) : M A :=
  fun s => match m s with
           | (Ret a, s') => (Ret a, s')
           | (Raise e, s') => h e s'
           end.

(** [r[i]] *)
Definition index (r : list string) (i : nat) : M string :=
  match r !! i with
  | Some x => ret x
  | None => raise IndexError
  end.

Definition lift {A} (x : result A) : M A :=
  match x with
  | Ret a => ret a
  | Raise e => raise e
  end.

Definition set_total_count (v : Z) (s : state) : state :=
  {| total_count := v; count := count s; line_count := line_count s;
     sql_values := sql_values s; batch := batch s; cursor := cursor s;
     store := store s; trace := trace s |}.
Definition set_count (v : Z) (s : state) : state :=
  {| total_count := total_count s; count := v; line_count := line_count s;
     sql_values := sql_values s; batch := batch s; cursor := cursor s;
     store := store s; trace := trace s |}.
Definition set_line_count (v : Z) (s : state) : state :=
  {| total_count := total_count s; count := count s; line_count := v;
     sql_values := sql_values s; batch := batch s; cursor := cursor s;
     store := store s; trace := trace s |}.
Definition set_sql_values (v : string) (rows : list geo_row) (s : state)
  : state :=
  {| total_count := total_count s; count := count s;
     line_count := line_count s; sql_values := v; batch := rows;
     cursor := cursor s; store := store s; trace := trace s |}.
Definition set_cursor (v : bool) (s : state) : state :=
  {| total_count := total_count s; count := count s;
     line_count := line_count s; sql_values := sql_values s;
     batch := batch s; cursor := v; store := store s; trace := trace s |}.
Definition set_store (v : DB) (s : state) : state :=
  {| total_count := total_count s; count := count s;
     line_count := line_count s; sql_values := sql_values s;
     batch := batch s; cursor := cursor s; store := v; trace := trace s |}.
Definition emit (e : event) : M unit :=
  modify (fun s =>
    {| total_count := total_count s; count := count s;
       line_count := line_count s; sql_values := sql_values s;
       batch := batch s; cursor := cursor s; store := store s;
       trace := trace s ++ [e] |}).

Notation "x <- m ;; k" := (bind m (fun x => k))
  (at level 100, m at next level, k at level 200).
Notation "m ;; k" := (bind m (fun _ => k))
  (at level 100, k at level 200).

(** *** [dbHandler] *)

Definition connectDb : M unit :=
  match py_connect with
  | None => modify (set_cursor true)
  | Some ProgrammingError => emit LogConnectFailed ;; raise ProgrammingError
  | Some e => raise e
  end.

Definition close : M unit :=
  s <- get ;;
  if cursor s then emit Close ;; modify (set_cursor false) else ret tt.

(** [self.cursor.execute(query)] *)
Definition execute (q : statement) : M unit :=
  emit (Execute q) ;;
  s <- get ;;
  match cursor_execute q (store s) with
  | (None, d) => modify (set_store d)
  | (Some e, d) => modify (set_store d) ;; raise e
  end.

(** [self.conn.commit()] *)
Definition commit : M unit :=
  emit Commit ;;
  s <- get ;;
  match conn_commit (store s) with
  | (None, d) => modify (set_store d)
  | (Some e, d) => modify (set_store d) ;; raise e
  end.

(** [queryNoResults(query)], called without parameters: [Some true] for
    [True], [None] for [None].  The two clock readings are left out. *)
Definition queryNoResults (q : statement) : M (option bool) :=
  s <- get ;;
  if negb (cursor s) then emit LogNotConnected ;; ret None
  else
    try_except
      (execute q ;; commit ;; ret (Some true))
      (fun err =>
         match err with
         | ProgrammingError => emit LogQueryFailed ;; ret None
         | _ => raise err
         end).

(** *** [main] *)

(** [sql_insert + sql_values + sql_conflict] *)
Definition upsert_statement (s : state) : statement :=
  {| stmt_text := sql_insert +:+ sql_values s +:+ sql_conflict;
     stmt_rows := batch s |}.

(** The body of [for ip in ip_list]. *)
Definition append_row (addr_type : Z) (r : list string) (net : string)
  : M unit :=
  s <- get ;;
  (if count s =? 0 then ret tt
   else modify (fun s => set_sql_values (sql_values s +:+ ",") (batch s) s)) ;;
  row <- lift (make_row addr_type net r) ;;
  modify (fun s =>
    set_sql_values (sql_values s +:+ format_values row) (batch s) s) ;;
  modify (fun s =>
    set_sql_values (sql_values s +:+ values_tail) (batch s ++ [row]) s) ;;
  modify (fun s => set_count (count s + 1) s).

Fixpoint for_each {A} (f : A -> M unit) (l : list A) : M unit :=
  match l with
  | [] => ret tt
  | x :: l' => f x ;; for_each f l'
  end.

(** The loop body up to the end of the [for]: the line is parsed and its
    rows are appended. *)
Definition expand_record (line : string) : M unit :=
  r <- (match Csv.read_record (stripped_line line) with
        | Some r => ret r
        | None => raise CsvError
        end) ;;
  r0 <- index r 0 ;;
  r1 <- index r 1 ;;
  ip_list <- (match iprange_to_cidrs r0 r1 with
              | Some l => ret l
              | None => raise AddrFormatError
              end) ;;
  r0' <- index r 0 ;;
  for_each (append_row (addr_type r0') r) ip_list.

(** [try: db.queryNoResults(...) except: ...; db.queryNoResults(...)] *)
Definition flush : M unit :=
  s <- get ;;
  try_except
    (queryNoResults (upsert_statement s) ;; ret tt)
    (fun _ =>
       emit LogTryingAgain ;;
       s' <- get ;;
       queryNoResults (upsert_statement s') ;; ret tt).

(** The rest of the loop body, after the next line was read: the bulk
    insert when the batch is full. *)
Definition bulk_insert : M unit :=
  modify (fun s => set_line_count (line_count s + 1) s) ;;
  s <- get ;;
  if 5000 <=? count s then
    modify (fun s => set_total_count (total_count s + count s) s) ;;
    s <- get ;;
    emit (LogInserting (count s) (total_count s) (line_count s)) ;;
    flush ;;
    modify (set_sql_values EmptyString []) ;;
    modify (set_count 0)
  else ret tt.

(** [while line and len(line) > 0]: [lines] is what the successive calls
    of [readline] return, the empty string standing for the end of the
    file. *)
Fixpoint while_line (lines : list string) : M unit :=
  match lines with
  | [] => ret tt
  | line :: rest =>
      if (String.length line =? 0)%nat then ret tt
      else expand_record line ;; bulk_insert ;; while_line rest
  end.

(** [# insert the last batch] *)
Definition insert_last_batch : M unit :=
  s <- get ;;
  if (0 <? String.length (sql_values s))%nat then
    modify (fun s => set_total_count (total_count s + count s) s) ;;
    s <- get ;;
    try_except
      (emit (LogInsertingLast (count s) (total_count s) (line_count s)) ;;
       queryNoResults (upsert_statement s) ;; ret tt)
      (fun _ =>
         emit LogTryingAgain ;;
         s' <- get ;;
         queryNoResults (upsert_statement s') ;; ret tt)
  else ret tt.

Definition main (lines : list string) : M unit :=
  connectDb ;;
  modify (set_total_count 0) ;;
  modify (set_count 0) ;;
  modify (set_line_count 1) ;;
  modify (set_sql_values EmptyString []) ;;
  while_line lines ;;
  insert_last_batch ;;
  close.

(** The state a run starts from: nothing connected, nothing logged. *)
Definition initial (d : DB) : state :=
  {| total_count := 0; count := 0; line_count := 0;
     sql_values := EmptyString; batch := []; cursor := false;
     store := d; trace := [] |}.

End Script.

Arguments initial {DB} d.
Arguments total_count {DB} s.
Arguments count {DB} s.
Arguments line_count {DB} s.
Arguments sql_values {DB} s.
Arguments batch {DB} s.
Arguments cursor {DB} s.
Arguments store {DB} s.
Arguments trace {DB} s.

(** ** The range expander

    Modelled from the spec: [netaddr.iprange_to_cidrs] is a function of the
    netaddr library, whose code is not part of the repository.  The model is
    the decomposition section 4.1 describes, on addresses as integers of a
    width of [w] bits: the largest aligned block that starts at the current
    address and does not pass the end of the range is emitted, the current
    address moves past it, until it passes the end of the range. *)

Module Netaddr.

(** A block: its first address and the length of its prefix. *)
Record cidr := { first : Z; prefixlen : nat }.

Definition size (w : nat) (c : cidr) : Z := 2 ^ Z.of_nat (w - prefixlen c).
Definition last (w : nat) (c : cidr) : Z := first c + size w c - 1.

(** The address [a] lies in the block. *)
Definition member (w : nat) (c : cidr) (a : Z) : Prop :=
  first c <= a <= last w c.

(** A block of the address space of [w] bits: the prefix is no longer than
    the address, and the first address has its host bits clear. *)
Definition valid (w : nat) (c : cidr) : Prop :=
  (prefixlen c <= w)%nat /\ 0 <= first c /\ last w c < 2 ^ Z.of_nat w /\
  first c mod size w c = 0.

(** The number of host bits, at most [k], of the largest aligned block
    that starts at [cur] and ends at [e] or before. *)
Fixpoint largest_block (k : nat) (cur e : Z) : nat :=
  match k with
  | O => O
  | S k' =>
      if (cur mod 2 ^ Z.of_nat k =? 0) && (cur + 2 ^ Z.of_nat k - 1 <=? e)
      then k
      else largest_block k' cur e
  end.

(** The loop, with a bound on the number of its iterations. *)
Fixpoint expand (fuel : nat) (w : nat) (cur e : Z) : list cidr :=
  match fuel with
  | O => []
  | S fuel' =>
      if e <? cur then []
      else
        let k := largest_block w cur e in
        {| first := cur; prefixlen := w - k |}
          :: expand fuel' w (cur + 2 ^ Z.of_nat k) e
  end.

(** The blocks of the range from [s] to [e].  No range of [w]-bit
    addresses takes more than [2 * w] iterations ([expand_enough]). *)
Definition iprange_to_cidrs (w : nat) (s e : Z) : list cidr :=
  expand (2 * w + 1) w s e.

(** Two blocks are merged by the block [c] when [c] holds the addresses of
    the two and no other. *)
Definition merges (w : nat) (c a b : cidr) : Prop :=
  valid w c /\ forall x, member w c x <-> member w a x \/ member w b x.

(** *** IPv4 text *)

Fixpoint split (c : ascii) (s : string) : list string :=
  match s with
  | EmptyString => [EmptyString]
  | String a s' =>
      if Text.ascii_eqb a c then EmptyString :: split c s'
      else match split c s' with
           | h :: t => String a h :: t
           | [] => [String a EmptyString]
           end
  end.

Definition digit (a : ascii) : option Z :=
  let n := Z.of_nat (nat_of_ascii a) in
  if (48 <=? n) && (n <=? 57) then Some (n - 48) else None.

Fixpoint decimal_go (acc : Z) (s : string) : option Z :=
  match s with
  | EmptyString => Some acc
  | String a s' =>
      match digit a with
      | Some d => decimal_go (10 * acc + d) s'
      | None => None
      end
  end.

(** One byte of a dotted quad: one to three digits, at most 255. *)
Definition octet (s : string) : option Z :=
  if ((1 <=? String.length s) && (String.length s <=? 3))%nat then
    match decimal_go 0 s with
    | Some n => if n <=? 255 then Some n else None
    | None => None
    end
  else None.

Definition parse_ipv4 (s : string) : option Z :=
  match split Text.dot s with
  | [a; b; c; d] =>
      match octet a, octet b, octet c, octet d with
      | Some a, Some b, Some c, Some d =>
          Some (((a * 256 + b) * 256 + c) * 256 + d)
      | _, _, _, _ => None
      end
  | _ => None
  end.

Definition format_ipv4 (a : Z) : string :=
  pretty (a / 16777216) +:+ "." +:+ pretty (a / 65536 mod 256) +:+ "."
  +:+ pretty (a / 256 mod 256) +:+ "." +:+ pretty (a mod 256).

Definition format_cidr_v4 (c : cidr) : string :=
  format_ipv4 (first c) +:+ "/" +:+ pretty (prefixlen c).

(** The expander of the script on IPv4 text: the blocks as the [%s] of the
    loop prints them.  Text that is not a dotted quad, or a range that
    ends before it starts, is an error. *)
Definition iprange_to_cidrs_v4 (start_ip end_ip : string)
  : option (list string) :=
  match parse_ipv4 start_ip, parse_ipv4 end_ip with
  | Some s, Some e =>
      if s <=? e then Some (map format_cidr_v4 (iprange_to_cidrs 32 s e))
      else None
  | _, _ => None
  end.

End Netaddr.

(** ** The table

    Modelled from the spec: the table [geo_ip] and the effect of the
    statement on it are PostgreSQL's.  The table is a finite map from the
    primary key [ip] to the row; the statement inserts its rows, and a row
    whose key is taken is resolved by the conflict clause, read from the
    text of [sql_conflict]. *)

Module Pg.

Inductive column :=
| c_family | c_ip | c_city | c_stateprov | c_country | c_latitude
| c_longitude | c_timezone_offset | c_timezone_name | c_isp_name.

Definition columns : list column :=
  [c_family; c_ip; c_city; c_stateprov; c_country; c_latitude;
   c_longitude; c_timezone_offset; c_timezone_name; c_isp_name].

Definition column_name (c : column) : string :=
  match c with
  | c_family => "family" | c_ip => "ip" | c_city => "city"
  | c_stateprov => "stateprov" | c_country => "country"
  | c_latitude => "latitude" | c_longitude => "longitude"
  | c_timezone_offset => "timezone_offset"
  | c_timezone_name => "timezone_name" | c_isp_name => "isp_name"
  end.

Definition column_of_name (n : string) : option column :=
  List.find (fun c => String.eqb (column_name c) n) columns.

(** [c = excluded.c]: the column [c] of [old] is replaced by that of the
    row proposed for insertion. *)
Definition assign (c : column) (excluded old : geo_row) : geo_row :=
  {| family := if c is c_family then family excluded else family old;
     ip := if c is c_ip then ip excluded else ip old;
     city := if c is c_city then city excluded else city old;
     stateprov :=
       if c is c_stateprov then stateprov excluded else stateprov old;
     country := if c is c_country then country excluded else country old;
     latitude := if c is c_latitude then latitude excluded else latitude old;
     longitude :=
       if c is c_longitude then longitude excluded else longitude old;
     timezone_offset :=
       if c is c_timezone_offset then timezone_offset excluded
       else timezone_offset old;
     timezone_name :=
       if c is c_timezone_name then timezone_name excluded
       else timezone_name old;
     isp_name := if c is c_isp_name then isp_name excluded else isp_name old
  |}.

(** [ON CONFLICT (target) DO UPDATE SET c = excluded.c, ...] *)
Record conflict_clause := { target : column; updates : list column }.

Definition is_separator (a : ascii) : bool :=
  match a with
  | " " | "," | "(" | ")" | ";" => true
  | _ => false
  end%char.

(** The words of a clause, between blanks, commas, brackets and
    semicolons. *)
Fixpoint words (cur : string) (s : string) : list string :=
  match s with
  | EmptyString => if cur is EmptyString then [] else [cur]
  | String a s' =>
      if is_separator a then
        (if cur is EmptyString then words EmptyString s'
         else cur :: words EmptyString s')
      else words (Text.snoc cur a) s'
  end.

(** [c=excluded.c] *)
Definition read_assignment (w : string) : option column :=
  match Netaddr.split "="%char w with
  | [lhs; rhs] =>
      match column_of_name lhs with
      | Some c =>
          if String.eqb rhs ("excluded." +:+ column_name c) then Some c
          else None
      | None => None
      end
  | _ => None
  end.

Fixpoint read_assignments (ws : list string) : option (list column) :=
  match ws with
  | [] => Some []
  | w :: ws' =>
      match read_assignment w, read_assignments ws' with
      | Some c, Some cs => Some (c :: cs)
      | _, _ => None
      end
  end.

Definition read_conflict_clause (s : string) : option conflict_clause :=
  match words EmptyString s with
  | "ON" :: "CONFLICT" :: t :: "DO" :: "UPDATE" :: "SET" :: ws =>
      match column_of_name t, read_assignments ws with
      | Some c, Some cs => Some {| target := c; updates := cs |}
      | _, _ => None
      end
  | _ => None
  end.

(** The row kept when [excluded] meets the row [old] of the same key. *)
Definition on_conflict (cl : conflict_clause) (old excluded : geo_row)
  : geo_row :=
  fold_left (fun acc c => assign c excluded acc) (updates cl) old.

Definition upsert_row (cl : conflict_clause) (t : gmap string geo_row)
  (new : geo_row) : gmap string geo_row :=
  match t !! ip new with
  | None => <[ip new := new]> t
  | Some old => <[ip new := on_conflict cl old new]> t
  end.

(** The rows of one statement of the script. *)
Definition upsert_rows (t : gmap string geo_row) (rows : list geo_row)
  : gmap string geo_row :=
  match read_conflict_clause sql_conflict with
  | Some cl => fold_left (upsert_row cl) rows t
  | None => t
  end.

(** The server: the table, and the state of the session, on which alone
    it depends whether a statement is accepted.  An accepted statement
    changes the table, a refused one leaves it; [commit] succeeds. *)
Section Server.

Variable session : Type.
Variable verdict : string -> session -> option exn * session.

Record server := { table : gmap string geo_row; sess : session }.

Definition pg_execute (q : statement) (d : server) : option exn * server :=
  match verdict (stmt_text q) (sess d) with
  | (None, s') =>
      (None, {| table := upsert_rows (table d) (stmt_rows q); sess := s' |})
  | (Some e, s') => (Some e, {| table := table d; sess := s' |})
  end.

Definition pg_commit (d : server) : option exn * server := (None, d).

End Server.

End Pg.

(** ** The other methods of [dbHandler]

    [createTable] and [query], which [main] does not call.  The class
    defines [createTable] twice: the second definition replaces the first,
    kept here as [createTable_shadowed].  [query] is modelled as called
    without parameters, and without its two clock readings.  The handler is
    as in the script: connected or not, the state of the database, and next
    to them the log lines and the calls of the driver so far. *)

Module Handler.

Inductive log_line :=
| NotConnected        (* Looks like psql is not connected, try to reconnect *)
| CreateFailed        (* Failed to create table *)
| QueryFailed.        (* query failed *)

Inductive call :=
| Log (m : log_line)
| CursorExecute (sql : string)
| Fetchmany (size : N).

Section Methods.

Variable DB : Type.
Variable R : Type.
Variable cursor_execute : string -> DB -> option exn * DB.
Variable cursor_fetchmany : N -> DB -> (exn + list R) * DB.

Record handler := { h_cursor : bool; h_store : DB; h_calls : list call }.

Definition log (m : log_line) (h : handler) : handler :=
  {| h_cursor := h_cursor h; h_store := h_store h;
     h_calls := h_calls h ++ [Log m] |}.

(** [self.cursor.execute(sql)] *)
Definition run (sql : string) (h : handler) : option exn * handler :=
  let '(o, d) := cursor_execute sql (h_store h) in
  (o, {| h_cursor := h_cursor h; h_store := d;
         h_calls := h_calls h ++ [CursorExecute sql] |}).

(** ["DROP TABLE IF EXISTS %s" % tableName] *)
Definition drop_table (tableName : string) : string :=
  "DROP TABLE IF EXISTS " +:+ tableName.

(** The body of the [try] of [createTable]. *)
Definition create (tableName tableSchema : string) (dropIfExists : bool)
  (h : handler) : option exn * handler :=
  if dropIfExists then
    match run (drop_table tableName) h with
    | (None, h1) => run tableSchema h1
    | (Some e, h1) => (Some e, h1)
    end
  else run tableSchema h.

(** The second definition of [createTable], the one in force. *)
Definition createTable (tableName tableSchema : string) (dropIfExists : bool)
  (h : handler) : result bool * handler :=
  if negb (h_cursor h) then (Ret false, log NotConnected h)
  else
    match create tableName tableSchema dropIfExists h with
    | (None, h1) => (Ret true, h1)
    | (Some ProgrammingError, h1) => (Ret false, log CreateFailed h1)
    | (Some e, h1) => (Raise e, h1)
    end.

(** The first definition, whose [except] has no [return]. *)
Definition createTable_shadowed (tableName tableSchema : string)
  (dropIfExists : bool) (h : handler) : result bool * handler :=
  if negb (h_cursor h) then (Ret false, log NotConnected h)
  else
    match create tableName tableSchema dropIfExists h with
    | (None, h1) => (Ret true, h1)
    | (Some ProgrammingError, h1) => (Ret true, log CreateFailed h1)
    | (Some e, h1) => (Raise e, h1)
    end.

Definition fetch_size : N := 10000.

(** [while (True)] of [query], with a bound on its iterations: [None] when
    the bound is reached. *)
Fixpoint fetch_all (fuel : nat) (rows : list R) (h : handler)
  : option (result (list R) * handler) :=
  match fuel with
  | O => None
  | S fuel' =>
      let '(o, d) := cursor_fetchmany fetch_size (h_store h) in
      let h1 := {| h_cursor := h_cursor h; h_store := d;
                   h_calls := h_calls h ++ [Fetchmany fetch_size] |} in
      match o with
      | inl e => Some (Raise e, h1)
      | inr result =>
          if (0 <? length result)%nat then fetch_all fuel' (rows ++ result) h1
          else Some (Ret rows, h1)
      end
  end.

(** [except py.ProgrammingError] of [query] *)
Definition query_failed (e : exn) (h : handler)
  : result (option (list R)) * handler :=
  match e with
  | ProgrammingError => (Ret None, log QueryFailed h)
  | _ => (Raise e, h)
  end.

Definition query (fuel : nat) (sql : string) (h : handler)
  : option (result (option (list R)) * handler) :=
  if negb (h_cursor h) then Some (Ret None, log NotConnected h)
  else
    match run sql h with
    | (Some e, h1) => Some (query_failed e h1)
    | (None, h1) =>
        match fetch_all fuel [] h1 with
        | None => None
        | Some (Ret rows, h2) => Some (Ret (Some rows), h2)
        | Some (Raise e, h2) => Some (query_failed e h2)
        end
    end.

End Methods.

Arguments h_cursor {DB} h.
Arguments h_store {DB} h.
Arguments h_calls {DB} h.

(** The statements handed to the cursor, in order. *)
Definition statements (t : list call) : list string :=
  omap (fun c => match c with CursorExecute q => Some q | _ => None end) t.

End Handler.

(** ** Predicates of the statements *)

(** [sql_values] is the text of [batch], and [count] its length. *)
Definition consistent {DB} (s : state DB) : Prop :=
  count s = Z.of_nat (length (batch s)) /\
  sql_values s = format_batch (batch s).

(** Nothing but the batch, its text and its count differs between [s] and
    [s']. *)
Definition same_frame {DB} (s s' : state DB) : Prop :=
  trace s' = trace s /\ store s' = store s /\ cursor s' = cursor s /\
  total_count s' = total_count s /\ line_count s' = line_count s.

(** The rows the loop body appends for one line, as a function of the
    line: the tuples of [make_row], one per network, in order
    ([expand_record_ret] and [expand_record_raise] relate it to the loop
    body). *)
Fixpoint make_rows (t : Z) (r : list string) (nets : list string)
  : result (list geo_row) :=
  match nets with
  | [] => Ret []
  | net :: nets' =>
      match make_row t net r with
      | Raise e => Raise e
      | Ret row =>
          match make_rows t r nets' with
          | Ret rows => Ret (row :: rows)
          | Raise e => Raise e
          end
      end
  end.

Definition record_rows (iprange_to_cidrs : string -> string -> option (list string))
  (line : string) : result (list geo_row) :=
  match Csv.read_record (stripped_line line) with
  | None => Raise CsvError
  | Some r =>
      match r !! 0%nat, r !! 1%nat with
      | Some r0, Some r1 =>
          match iprange_to_cidrs r0 r1 with
          | Some nets => make_rows (addr_type r0) r nets
          | None => Raise AddrFormatError
          end
      | _, _ => Raise IndexError
      end
  end.

(** The rows of all the lines up to the end of the file, when every line
    gives its rows. *)
Fixpoint expanded_rows (iprange_to_cidrs : string -> string -> option (list string))
  (lines : list string) : result (list geo_row) :=
  match lines with
  | [] => Ret []
  | line :: rest =>
      if (String.length line =? 0)%nat then Ret []
      else
        match record_rows iprange_to_cidrs line with
        | Raise e => Raise e
        | Ret rows =>
            match expanded_rows iprange_to_cidrs rest with
            | Ret rows' => Ret (rows ++ rows')
            | Raise e => Raise e
            end
        end
  end.

(** One attempt at a statement, as [queryNoResults] makes it: [execute],
    then [commit] when [execute] raised nothing. *)
Definition attempt {DB} (cursor_execute : statement -> DB -> option exn * DB)
  (conn_commit : DB -> option exn * DB) (q : statement) (d : DB)
  : option exn * DB :=
  match cursor_execute q d with
  | (None, d') => conn_commit d'
  | (Some e, d') => (Some e, d')
  end.

(** An exception that [queryNoResults] lets through. *)
Definition escapes (o : option exn) : Prop :=
  exists e, o = Some e /\ e <> ProgrammingError.

(** The variables of [main] are the same in [s] and [s']. *)
Definition same_locals {DB} (s s' : state DB) : Prop :=
  total_count s' = total_count s /\ count s' = count s /\
  line_count s' = line_count s /\ sql_values s' = sql_values s /\
  batch s' = batch s.

(** The events other than the statements handed to the cursor, the two
    announcements of an insert, and the closing of the connection. *)
Definition silent (e : event) : bool :=
  match e with
  | Commit | LogQueryFailed | LogTryingAgain | LogNotConnected
  | LogConnectFailed => true
  | _ => false
  end.

(** The state in which the bulk insert of the loop flushes: the line is
    counted, the rows are added to the total, the insert is announced. *)
Definition bulk_announced {DB} (s : state DB) : state DB :=
  {| total_count := total_count s + count s; count := count s;
     line_count := line_count s + 1; sql_values := sql_values s;
     batch := batch s; cursor := cursor s; store := store s;
     trace := trace s ++ [LogInserting (count s) (total_count s + count s)
                            (line_count s + 1)] |}.

(** The state in which the last batch is flushed. *)
Definition last_announced {DB} (s : state DB) : state DB :=
  {| total_count := total_count s + count s; count := count s;
     line_count := line_count s; sql_values := sql_values s;
     batch := batch s; cursor := cursor s; store := store s;
     trace := trace s ++ [LogInsertingLast (count s) (total_count s + count s)
                            (line_count s)] |}.

(** The state in which the loop starts, the connection made. *)
Definition started {DB} (d : DB) : state DB :=
  {| total_count := 0; count := 0; line_count := 1;
     sql_values := EmptyString; batch := []; cursor := true;
     store := d; trace := [] |}.

Definition loud (t : list event) : list event :=
  filter (fun e => silent e = false) t.

(** An event that is no statement, or a statement made of the INSERT, some
    rows and the conflict clause. *)
Definition is_upsert (e : event) : Prop :=
  match e with
  | Execute q =>
      exists values, stmt_text q = sql_insert +:+ values +:+ sql_conflict
  | _ => True
  end.

(** The trace of [s'] is that of [s] and events that satisfy [P]. *)
Definition grows {DB} (P : event -> Prop) (s s' : state DB) : Prop :=
  exists evs, trace s' = trace s ++ evs /\ Forall P evs.

(** The bulk inserts of the loop, and those of the last batch, among the
    events of a run. *)
Definition is_bulk_insert (e : event) : bool :=
  match e with LogInserting _ _ _ => true | _ => false end.
Definition is_last_insert (e : event) : bool :=
  match e with LogInsertingLast _ _ _ => true | _ => false end.
Definition is_execute (e : event) : bool :=
  match e with Execute _ => true | _ => false end.

Definition count_events (p : event -> bool) (t : list event) : nat :=
  length (filter (fun e => p e = true) t).

(** The field being collected and the fields saved hold characters that
    satisfy [p] only. *)
Definition reader_all (p : ascii -> bool) (r : Csv.reader) : Prop :=
  Text.all_chars p (Csv.field r) = true /\
  Forall (fun f => Text.all_chars p f = true) (Csv.fields r).

(** The reading of a string identifying this importer: a tag that names
    the importer is at least not empty. *)
Definition identifies_importer (tag : string) : Prop := tag <> EmptyString.

(** The blocks of [l] follow one another from the address [from] to the
    address before [to]. *)
Fixpoint chain (w : nat) (from : Z) (l : list Netaddr.cidr) (to : Z) : Prop :=
  match l with
  | [] => from = to
  | c :: l' => Netaddr.first c = from /\ chain w (Netaddr.last w c + 1) l' to
  end.

(** No larger aligned block starts where [c] does and ends at [e] or
    before. *)
Definition largest (w : nat) (e : Z) (c : Netaddr.cidr) : Prop :=
  forall j : nat,
    (w - Netaddr.prefixlen c < j <= w)%nat ->
    ~ (Netaddr.first c mod 2 ^ Z.of_nat j = 0 /\
       Netaddr.first c + 2 ^ Z.of_nat j - 1 <= e).

(** The list [l] is the decomposition of the range from [s] to [e] into
    blocks of the address space of [w] bits: its members are blocks; an
    address lies in one of them exactly when it lies in the range; a block
    ends before any later block starts, so that the blocks are in increasing
    order and no two overlap; and no block merges two neighbours. *)
Definition decomposes (w : nat) (s e : Z) (l : list Netaddr.cidr) : Prop :=
  Forall (Netaddr.valid w) l /\
  (forall a, (exists c, c ∈ l /\ Netaddr.member w c a) <-> s <= a <= e) /\
  (forall (i j : nat) ci cj,
     (i < j)%nat -> l !! i = Some ci -> l !! j = Some cj ->
     Netaddr.last w ci < Netaddr.first cj) /\
  (forall (i : nat) a b,
     l !! i = Some a -> l !! S i = Some b ->
     ~ exists c, Netaddr.merges w c a b).

(** A bound on the iterations of the loop from [cur]: while the alignment
    of the current address limits the block, the blocks grow; once the
    remaining range limits it, they shrink. *)
Definition budget (w : nat) (cur e : Z) : nat :=
  if e <? cur then 0%nat
  else
    let k := Netaddr.largest_block w cur e in
    let L := Z.to_nat (Z.log2 (e + 1 - cur)) in
    if (k <? L)%nat then (2 * w + 1 - k)%nat else (L + 1)%nat.

(** Every row of the table sits under its own key. *)
Definition keyed (t : gmap string geo_row) : Prop :=
  forall k row, t !! k = Some row -> ip row = k.

(** The conflict clause of the statement ([sql_conflict_read]). *)
Definition geo_ip_conflict : Pg.conflict_clause :=
  {| Pg.target := Pg.c_ip;
     Pg.updates := [Pg.c_city; Pg.c_stateprov; Pg.c_country; Pg.c_latitude;
                    Pg.c_longitude] |}.

Arguments Pg.table {session} s.
Arguments Pg.sess {session} s.
Arguments Pg.pg_execute {session} verdict q d.
Arguments Pg.pg_commit {session} d.

(** Two states of runs on servers that differ in their tables only. *)
Definition sim {S} (s s' : state (Pg.server S)) : Prop :=
  same_locals s s' /\ cursor s' = cursor s /\
  Pg.sess (store s') = Pg.sess (store s).

(** Two outcomes, from [s] and from [s'], that raise the same or return in
    states that differ in their tables only, the same rows having gone into
    both tables. *)
Definition run_agree {S} (s s' : state (Pg.server S))
  (x x' : result unit * state (Pg.server S)) : Prop :=
  fst x = fst x' /\
  (fst x = Ret tt ->
   sim (snd x) (snd x') /\ consistent (snd x) /\ cursor (snd x) = true) /\
  exists rows,
    Pg.table (store (snd x))
    = fold_left (Pg.upsert_row geo_ip_conflict) rows (Pg.table (store s)) /\
    Pg.table (store (snd x'))
    = fold_left (Pg.upsert_row geo_ip_conflict) rows (Pg.table (store s')).

(** The row [old] with the five geographic columns of [new]. *)
Definition refreshed (old new : geo_row) : geo_row :=
  {| family := family old; ip := ip old;
     city := city new; stateprov := stateprov new; country := country new;
     latitude := latitude new; longitude := longitude new;
     timezone_offset := timezone_offset old;
     timezone_name := timezone_name old; isp_name := isp_name old |}.

(** What a statement does to the row of one key. *)
Definition upsert_cell (o : option geo_row) (new : geo_row) : option geo_row :=
  Some (match o with Some old => refreshed old new | None => new end).

Definition same_geo (x y : geo_row) : Prop :=
  city x = city y /\ stateprov x = stateprov y /\ country x = country y /\
  latitude x = latitude y /\ longitude x = longitude y.

Definition same_rest (x y : geo_row) : Prop :=
  family x = family y /\ ip x = ip y /\
  timezone_offset x = timezone_offset y /\
  timezone_name x = timezone_name y /\ isp_name x = isp_name y.

(** ** Predicates of the further properties *)

(** What a run leaves in its trace before the connection is closed: a
    statement has rows and is the INSERT, the text of its rows and the
    conflict clause; a bulk insert announces 5000 rows or more, the insert
    of the last batch fewer than 5000 and at least one. *)
Definition run_event (e : event) : Prop :=
  match e with
  | Execute q =>
      stmt_rows q <> [] /\
      stmt_text q = sql_insert +:+ format_batch (stmt_rows q) +:+ sql_conflict
  | LogInserting c _ _ => 5000 <= c
  | LogInsertingLast c _ _ => 0 < c < 5000
  | Close | LogConnectFailed => False
  | _ => True
  end.

(** The statements handed to the cursor, in order. *)
Definition executed (t : list event) : list statement :=
  omap (fun e => match e with Execute q => Some q | _ => None end) t.

(** The rows of a list of statements, in order. *)
Definition rows_sent (t : list event) : list geo_row :=
  concat (stmt_rows <$> executed t).

(** The lines the loop reads before the end of the file. *)
Fixpoint lines_read (lines : list string) : list string :=
  match lines with
  | [] => []
  | line :: rest =>
      if (String.length line =? 0)%nat then [] else line :: lines_read rest
  end.

(** A character that is neither a line break nor the quote character of the
    reader. *)
Definition plain (c : ascii) : bool :=
  negb (Csv.is_eol c) && negb (Text.ascii_eqb c Csv.quotechar).

(** The reader is outside quotes. *)
Definition in_field (r : Csv.reader) : Prop :=
  Csv.state r = Csv.START_RECORD \/ Csv.state r = Csv.START_FIELD \/
  Csv.state r = Csv.IN_FIELD.

(** The first piece of a split with [f] before it. *)
Definition prepend (f : string) (pieces : list string) : list string :=
  match pieces with
  | [] => [f]
  | h :: t => (f +:+ h) :: t
  end.

(** ** Concrete inputs *)

(** A record of the DB-IP city file: the range, the continent, the country,
    the state or province, the city in quotes, the latitude and the
    longitude. *)
Definition dbip_line : string :=
  "1.1.1.18,1.1.1.20,NA,US,CA,"
  +:+ String Text.dquote ("Example City" +:+ String Text.dquote ",37.0,-122.0").

(** The line of the scenario of the specification, of seven fields. *)
Definition spec_line : string :=
  "1.1.1.18,1.1.1.20,US,CA,"
  +:+ String Text.dquote ("Example City" +:+ String Text.dquote ",37.0,-122.0").

(** A database without state that accepts every statement, one that refuses
    every statement with a [ProgrammingError], and one that fails every
    statement with another exception. *)
Definition accept_execute (q : statement) (d : unit) : option exn * unit :=
  (None, d).
Definition refuse_execute (q : statement) (d : unit) : option exn * unit :=
  (Some ProgrammingError, d).
Definition fail_execute (q : statement) (d : unit) : option exn * unit :=
  (Some DatabaseError, d).
Definition accept_commit (d : unit) : option exn * unit := (None, d).

(** * Properties *)

(** ** Text *)

Lemma str_app_cons a s t : String a s +:+ t = String a (s +:+ t).
Proof. reflexivity. Qed.

Lemma str_app_empty_l s : EmptyString +:+ s = s.
Proof. reflexivity. Qed.

Lemma str_app_empty_r s : s +:+ EmptyString = s.
Proof. induction s as [|a s IH]; [done|]. by rewrite str_app_cons, IH. Qed.

Lemma str_app_assoc s t u : (s +:+ t) +:+ u = s +:+ t +:+ u.
Proof. induction s as [|a s IH]; [done|]. by rewrite !str_app_cons, IH. Qed.

Lemma str_length_app s t :
  String.length (s +:+ t) = (String.length s + String.length t)%nat.
Proof. induction s as [|a s IH]; [done|]. rewrite str_app_cons. simpl. by rewrite IH. Qed.

Lemma all_chars_app p s t :
  Text.all_chars p (s +:+ t) = Text.all_chars p s && Text.all_chars p t.
Proof.
  induction s as [|a s IH]; [done|].
  rewrite str_app_cons. simpl. by rewrite IH, andb_assoc.
Qed.

Lemma remove_char_clean s : Text.no_squote (Text.remove_char Text.squote s) = true.
Proof.
  unfold Text.no_squote. induction s as [|a s IH]; [done|]. simpl.
  destruct (Text.ascii_eqb a Text.squote) eqn:E; [done|]. simpl. by rewrite E.
Qed.

Lemma encode_ascii_ignore_all p s :
  Text.all_chars p s = true -> Text.all_chars p (Text.encode_ascii_ignore s) = true.
Proof.
  induction s as [|a s IH]; [done|]. simpl.
  intros [Ha Hs]%andb_true_iff. destruct (Text.is_ascii a); simpl; [|auto].
  by rewrite Ha, IH.
Qed.

Lemma encode_ascii_ignore_ascii s :
  Text.all_chars Text.is_ascii (Text.encode_ascii_ignore s) = true.
Proof.
  induction s as [|a s IH]; [done|]. simpl.
  destruct (Text.is_ascii a) eqn:E; [|done]. simpl. by rewrite E.
Qed.

Lemma encode_ascii_ignore_id s :
  Text.all_chars Text.is_ascii s = true -> Text.encode_ascii_ignore s = s.
Proof.
  induction s as [|a s IH]; [done|]. simpl.
  intros [Ha Hs]%andb_true_iff. rewrite Ha. by rewrite IH.
Qed.

Lemma encode_ascii_ignore_filter s :
  list_ascii_of_string (Text.encode_ascii_ignore s)
  = List.filter Text.is_ascii (list_ascii_of_string s).
Proof.
  induction s as [|a s IH]; [done|]. simpl.
  destruct (Text.is_ascii a); simpl; by rewrite IH.
Qed.

(** ** The CSV reader: the characters of the fields are characters of the
    line *)

Section CsvChars.
Import Csv.
Variable p : ascii -> bool.

Local Abbreviation reader_all := (reader_all p).

Lemma save_field_all r st : reader_all r -> reader_all (parse_save_field r st).
Proof.
  intros [Hf Hfs]. split; [done|]. simpl.
  apply Forall_app. split; [done|]. by constructor.
Qed.

Lemma set_state_all r st : reader_all r -> reader_all (set_state r st).
Proof. by intros [Hf Hfs]. Qed.

Lemma add_char_all r st c r' :
  reader_all r -> p c = true -> parse_add_char r st c = Some r' ->
  reader_all r'.
Proof.
  intros [Hf Hfs] Hc. unfold parse_add_char.
  destruct (_ <=? _)%N; [done|]. intros [= <-]. split; [|done]. simpl.
  unfold Text.snoc. rewrite all_chars_app, Hf. simpl. by rewrite Hc.
Qed.

Lemma process_char_all r c r' :
  reader_all r -> p c = true -> parse_process_char r c = Some r' ->
  reader_all r'.
Proof.
  intros Hr Hc. unfold parse_process_char.
  destruct (state r);
    repeat (match goal with |- context [if ?b then _ else _] => destruct b end);
    try (intros [= <-]; auto using save_field_all, set_state_all);
    try discriminate;
    eauto using add_char_all.
Qed.

Lemma parse_chars_all line r r' :
  reader_all r -> Text.all_chars p line = true ->
  parse_chars r line = Some r' -> reader_all r'.
Proof.
  revert r. induction line as [|c line IH]; simpl; intros r Hr Hl.
  - by intros [= <-].
  - apply andb_true_iff in Hl as [Hc Hl].
    destruct (parse_process_char r c) as [r1|] eqn:E; [|done].
    apply IH; [|done]. eauto using process_char_all.
Qed.

Lemma read_record_all line r :
  Text.all_chars p line = true -> read_record line = Some r ->
  Forall (fun f => Text.all_chars p f = true) r.
Proof.
  intros Hl. unfold read_record.
  destruct (parse_chars parse_reset line) as [r1|] eqn:E; [|done].
  assert (reader_all r1) as H1.
  { eapply parse_chars_all; [|done|done]. split; [done|constructor]. }
  assert (reader_all (parse_process_eol r1)) as H2.
  { unfold parse_process_eol.
    destruct (state r1); auto using save_field_all, set_state_all. }
  destruct (state (parse_process_eol r1)); intros [= <-];
    try apply H2. by apply (save_field_all _ START_RECORD).
Qed.

End CsvChars.

(** ** The rows of a record *)

Lemma make_row_ret t net r row :
  make_row t net r = Ret row ->
  exists r3 r4 r5 r6 r7,
    r !! 3%nat = Some r3 /\ r !! 4%nat = Some r4 /\ r !! 5%nat = Some r5 /\
    r !! 6%nat = Some r6 /\ r !! 7%nat = Some r7 /\
    row = {| family := t; ip := net;
             city := Text.encode_ascii_ignore r5;
             stateprov := Text.encode_ascii_ignore r4;
             country := r3; latitude := r6; longitude := r7;
             timezone_offset := 0; timezone_name := "UTC";
             isp_name := EmptyString |}.
Proof.
  unfold make_row.
  destruct (r !! 5%nat) as [r5|]; [|done].
  destruct (r !! 4%nat) as [r4|]; [|done].
  destruct (r !! 3%nat) as [r3|]; [|done].
  destruct (r !! 6%nat) as [r6|]; [|done].
  destruct (r !! 7%nat) as [r7|]; [|done].
  intros [= <-]. by exists r3, r4, r5, r6, r7.
Qed.

(** The only exception of the tuple is the index error of a short record:
    with eight fields the row is made, whatever bytes the fields hold. *)
Lemma make_row_total t net r :
  (8 <= length r)%nat -> exists row, make_row t net r = Ret row.
Proof.
  intros Hlen. unfold make_row.
  destruct (lookup_lt_is_Some_2 r 5%nat) as [r5 ->]; [lia|].
  destruct (lookup_lt_is_Some_2 r 4%nat) as [r4 ->]; [lia|].
  destruct (lookup_lt_is_Some_2 r 3%nat) as [r3 ->]; [lia|].
  destruct (lookup_lt_is_Some_2 r 6%nat) as [r6 ->]; [lia|].
  destruct (lookup_lt_is_Some_2 r 7%nat) as [r7 ->]; [lia|].
  eauto.
Qed.

Lemma make_row_raise t net r e :
  make_row t net r = Raise e -> e = IndexError /\ (length r < 8)%nat.
Proof.
  intros H. destruct (decide (8 <= length r)%nat) as [Hlen|Hlen].
  - destruct (make_row_total t net r Hlen) as [row Hrow]. congruence.
  - split; [|lia]. revert H. unfold make_row.
    repeat (match goal with |- context [match ?o with Some _ => _ | None => _ end] =>
                              destruct o end); congruence.
Qed.

Lemma format_row_made t net r row :
  make_row t net r = Ret row ->
  format_values row +:+ values_tail = format_row row.
Proof.
  intros (r3 & r4 & r5 & r6 & r7 & _ & _ & _ & _ & _ & ->)%make_row_ret.
  reflexivity.
Qed.

Lemma format_row_nonempty row : format_row row <> EmptyString.
Proof. done. Qed.

Lemma format_batch_snoc rows row :
  format_batch (rows ++ [row])
  = (if rows is [] then EmptyString else format_batch rows +:+ ",")
    +:+ format_row row.
Proof.
  induction rows as [|a rows IH]; [done|].
  destruct rows as [|b rows].
  - simpl. by rewrite str_app_assoc.
  - change (format_batch ((a :: b :: rows) ++ [row]))
      with (format_row a +:+ "," +:+ format_batch ((b :: rows) ++ [row])).
    rewrite IH.
    change (format_batch (a :: b :: rows))
      with (format_row a +:+ "," +:+ format_batch (b :: rows)).
    by rewrite !str_app_assoc.
Qed.

Lemma format_batch_empty rows :
  format_batch rows = EmptyString -> rows = [].
Proof.
  destruct rows as [|a [|b rows]]; [done| |]; simpl.
  - intros H. by destruct (format_row_nonempty a).
  - unfold format_row, format_values. rewrite !str_app_cons. done.
Qed.

Section ScriptFacts.

Variable DB : Type.
Variable cursor_execute : statement -> DB -> option exn * DB.
Variable conn_commit : DB -> option exn * DB.
Variable py_connect : option exn.
Variable iprange_to_cidrs : string -> string -> option (list string).

Local Abbreviation state := (state DB).
Local Abbreviation append_row := (append_row DB).
Local Abbreviation expand_record := (expand_record DB iprange_to_cidrs).
Local Abbreviation queryNoResults := (queryNoResults DB cursor_execute conn_commit).
Local Abbreviation flush := (flush DB cursor_execute conn_commit).
Local Abbreviation bulk_insert := (bulk_insert DB cursor_execute conn_commit).
Local Abbreviation while_line :=
  (while_line DB cursor_execute conn_commit iprange_to_cidrs).
Local Abbreviation insert_last_batch :=
  (insert_last_batch DB cursor_execute conn_commit).
Local Abbreviation main :=
  (main DB cursor_execute conn_commit py_connect iprange_to_cidrs).

Lemma append_row_ret t r net (s s' : state) :
  append_row t r net s = (Ret tt, s') ->
  exists row,
    make_row t net r = Ret row /\
    batch s' = batch s ++ [row] /\
    count s' = count s + 1 /\
    sql_values s'
    = ((if count s =? 0 then sql_values s else sql_values s +:+ ",")
       +:+ format_values row) +:+ values_tail /\
    same_frame s s'.
Proof.
  unfold append_row, bind, get, modify, ret, lift, raise.
  destruct (count s =? 0) eqn:E; simpl;
    (destruct (make_row t net r) as [row|e]; simpl; [|done]);
    intros [= <-]; exists row; simpl; rewrite ?E; done.
Qed.

Lemma append_row_raise t r net (s s' : state) e :
  append_row t r net s = (Raise e, s') ->
  make_row t net r = Raise e /\ same_frame s s'.
Proof.
  unfold append_row, bind, get, modify, ret, lift, raise.
  destruct (count s =? 0) eqn:E; simpl;
    (destruct (make_row t net r) as [row|e']; simpl; [done|]);
    by intros [= <- <-].
Qed.

Lemma same_frame_refl (s : state) : same_frame s s.
Proof. done. Qed.

Lemma same_frame_trans (s1 s2 s3 : state) :
  same_frame s1 s2 -> same_frame s2 s3 -> same_frame s1 s3.
Proof. unfold same_frame. intuition congruence. Qed.

Lemma append_row_consistent t r net (s s' : state) :
  append_row t r net s = (Ret tt, s') -> consistent s -> consistent s'.
Proof.
  intros (row & Hrow & Hb & Hc & Hsql & _)%append_row_ret [Hcount Htext].
  split.
  - rewrite Hc, Hb, Hcount, length_app. simpl. lia.
  - rewrite Hsql, Hb, format_batch_snoc, str_app_assoc.
    rewrite (format_row_made _ _ _ _ Hrow). f_equal.
    rewrite Hcount, Htext. by destruct (batch s).
Qed.

Lemma for_each_append t r nets (s : state) :
  match make_rows t r nets with
  | Ret rows =>
      exists s', for_each DB (append_row t r) nets s = (Ret tt, s') /\
        batch s' = batch s ++ rows /\
        count s' = count s + Z.of_nat (length rows) /\
        same_frame s s' /\ (consistent s -> consistent s')
  | Raise e =>
      exists s', for_each DB (append_row t r) nets s = (Raise e, s') /\
        same_frame s s'
  end.
Proof.
  revert s. induction nets as [|net nets IH]; intros s; simpl.
  - exists s. rewrite app_nil_r. simpl. split; [done|]. split; [done|].
    split; [lia|]. split; [apply same_frame_refl|auto].
  - unfold bind.
    destruct (append_row t r net s) as [[[]|e] s1] eqn:E1.
    + pose proof (append_row_consistent _ _ _ _ _ E1) as Hcons.
      apply append_row_ret in E1 as (row & -> & Hb & Hc & _ & Hf).
      specialize (IH s1).
      destruct (make_rows t r nets) as [rows|e].
      * destruct IH as (s' & -> & Hb' & Hc' & Hf' & Hcons').
        exists s'. split; [done|]. split; [by rewrite Hb', Hb, <- app_assoc|].
        split; [rewrite Hc', Hc; simpl; lia|].
        split; [by eapply same_frame_trans|auto].
      * destruct IH as (s' & -> & Hf').
        exists s'. split; [done|]. by eapply same_frame_trans.
    + apply append_row_raise in E1 as [-> Hf]. by exists s1.
Qed.

(** The loop body up to the end of the [for] appends the rows of the
    line. *)
Lemma expand_record_ret line rows (s : state) :
  record_rows iprange_to_cidrs line = Ret rows ->
  exists s', expand_record line s = (Ret tt, s') /\
    batch s' = batch s ++ rows /\
    count s' = count s + Z.of_nat (length rows) /\
    same_frame s s' /\ (consistent s -> consistent s').
Proof.
  unfold record_rows, expand_record, bind, index, ret, raise.
  destruct (Csv.read_record _) as [r|]; [|done].
  destruct (r !! 0%nat) as [r0|]; [|done].
  destruct (r !! 1%nat) as [r1|]; [|done].
  destruct (iprange_to_cidrs r0 r1) as [nets|]; [|done].
  intros H. pose proof (for_each_append (addr_type r0) r nets s) as Hfor.
  by rewrite H in Hfor.
Qed.

Lemma expand_record_raise line e (s : state) :
  record_rows iprange_to_cidrs line = Raise e ->
  exists s', expand_record line s = (Raise e, s') /\ same_frame s s'.
Proof.
  unfold record_rows, expand_record, bind, index, ret, raise.
  destruct (Csv.read_record _) as [r|]; [|intros [= <-]; by exists s].
  destruct (r !! 0%nat) as [r0|]; [|intros [= <-]; by exists s].
  destruct (r !! 1%nat) as [r1|]; [|intros [= <-]; by exists s].
  destruct (iprange_to_cidrs r0 r1) as [nets|]; [|intros [= <-]; by exists s].
  intros H. pose proof (for_each_append (addr_type r0) r nets s) as Hfor.
  by rewrite H in Hfor.
Qed.

(** Conversely, a loop body that returns has appended the rows of the
    line. *)
Lemma expand_record_inv line (s s' : state) :
  expand_record line s = (Ret tt, s') ->
  exists rows, record_rows iprange_to_cidrs line = Ret rows /\
    batch s' = batch s ++ rows /\
    count s' = count s + Z.of_nat (length rows) /\
    same_frame s s' /\ (consistent s -> consistent s').
Proof.
  intros H. destruct (record_rows iprange_to_cidrs line) as [rows|e] eqn:E.
  - destruct (expand_record_ret line rows s E) as (s1 & H1 & ?).
    rewrite H in H1. injection H1 as <-. by exists rows.
  - destruct (expand_record_raise line e s E) as (s1 & H1 & ?). congruence.
Qed.

Lemma make_rows_ret t r nets rows :
  make_rows t r nets = Ret rows ->
  Forall2 (fun net row => make_row t net r = Ret row) nets rows.
Proof.
  revert rows. induction nets as [|net nets IH]; simpl; intros rows.
  - intros [= <-]. constructor.
  - destruct (make_row t net r) as [row|] eqn:E; [|done].
    destruct (make_rows t r nets) as [rows'|]; [|done].
    intros [= <-]. constructor; auto.
Qed.

Lemma record_rows_inv line rows :
  record_rows iprange_to_cidrs line = Ret rows ->
  exists r r0 r1 nets,
    Csv.read_record (stripped_line line) = Some r /\
    r !! 0%nat = Some r0 /\ r !! 1%nat = Some r1 /\
    iprange_to_cidrs r0 r1 = Some nets /\
    Forall2 (fun net row => make_row (addr_type r0) net r = Ret row) nets rows.
Proof.
  unfold record_rows.
  destruct (Csv.read_record _) as [r|]; [|done].
  destruct (r !! 0%nat) as [r0|] eqn:E0; [|done].
  destruct (r !! 1%nat) as [r1|] eqn:E1; [|done].
  destruct (iprange_to_cidrs r0 r1) as [nets|] eqn:E; [|done].
  intros H%make_rows_ret. by exists r, r0, r1, nets.
Qed.

(** What the rows appended for a line are made of: the record read from the
    stripped line, its first two fields handed to the expander, and one
    tuple per network. *)
Lemma expand_record_rows line (s s' : state) :
  expand_record line s = (Ret tt, s') ->
  exists r r0 r1 nets rows,
    Csv.read_record (stripped_line line) = Some r /\
    r !! 0%nat = Some r0 /\ r !! 1%nat = Some r1 /\
    iprange_to_cidrs r0 r1 = Some nets /\
    Forall2 (fun net row => make_row (addr_type r0) net r = Ret row) nets rows /\
    batch s' = batch s ++ rows.
Proof.
  intros (rows & Hrows & Hb & _)%expand_record_inv.
  apply record_rows_inv in Hrows as (r & r0 & r1 & nets & ? & ? & ? & ? & ?).
  by exists r, r0, r1, nets, rows.
Qed.

Lemma Forall2_Forall_r {A B} (R : A -> B -> Prop) (P : B -> Prop) l k :
  Forall2 R l k -> (forall a b, a ∈ l -> R a b -> P b) -> Forall P k.
Proof.
  induction 1 as [|a b l k HR _ IH]; intros HP; constructor.
  - eapply HP; [|done]. by left.
  - apply IH. intros a' b' Ha'. apply HP. by right.
Qed.

End ScriptFacts.

(** ** The fields of the rows *)



(** The networks the IPv4 expander prints hold digits, dots and a slash. *)
Lemma pretty_N_go_clean x s :
  Text.no_squote s = true -> Text.no_squote (pretty_N_go x s) = true.
Proof.
  revert s. induction (N.lt_wf_0 x) as [x _ IH]; intros s Hs.
  assert (x = 0 \/ 0 < x)%N as [->|Hx] by lia.
  - by rewrite pretty_N_go_0.
  - rewrite pretty_N_go_step by done. apply IH.
    { by apply N.div_lt. }
    unfold Text.no_squote in *. simpl. rewrite Hs.
    unfold pretty_N_char. by repeat case_match.
Qed.

Lemma pretty_N_clean (x : N) : Text.no_squote (pretty x) = true.
Proof.
  unfold pretty, pretty_N. case_decide; [done|]. by apply pretty_N_go_clean.
Qed.

Lemma pretty_nat_clean (x : nat) : Text.no_squote (pretty x) = true.
Proof. apply pretty_N_clean. Qed.

Lemma pretty_Z_clean (x : Z) : Text.no_squote (pretty x) = true.
Proof.
  destruct x as [|p|p]; [done|apply pretty_N_clean|].
  unfold pretty, pretty_Z. unfold Text.no_squote. rewrite all_chars_app.
  apply andb_true_iff. split; [done|apply pretty_N_clean].
Qed.

Lemma no_squote_app s t :
  Text.no_squote s = true -> Text.no_squote t = true ->
  Text.no_squote (s +:+ t) = true.
Proof. unfold Text.no_squote. rewrite all_chars_app. by intros -> ->. Qed.

Lemma format_cidr_v4_clean c : Text.no_squote (Netaddr.format_cidr_v4 c) = true.
Proof.
  unfold Netaddr.format_cidr_v4, Netaddr.format_ipv4.
  repeat match goal with
         | |- Text.no_squote (_ +:+ _) = true => apply no_squote_app
         | |- Text.no_squote (@pretty Z _ _) = true => apply pretty_Z_clean
         | |- Text.no_squote (@pretty nat _ _) = true => apply pretty_nat_clean
         | |- Text.no_squote (String _ _) = true => reflexivity
         end.
Qed.

Lemma iprange_to_cidrs_v4_clean a b nets :
  Netaddr.iprange_to_cidrs_v4 a b = Some nets ->
  Forall (fun net => Text.no_squote net = true) nets.
Proof.
  unfold Netaddr.iprange_to_cidrs_v4.
  destruct (Netaddr.parse_ipv4 a) as [x|]; [|done].
  destruct (Netaddr.parse_ipv4 b) as [y|]; [|done].
  destruct (x <=? y); [|done].
  generalize (Netaddr.iprange_to_cidrs 32 x y). intros l [= <-].
  apply Forall_forall. intros net (c & -> & _)%list_elem_of_fmap.
  apply format_cidr_v4_clean.
Qed.

Lemma make_row_trailing t net r extra :
  (8 <= length r)%nat -> make_row t net (r ++ extra) = make_row t net r.
Proof.
  intros Hlen. unfold make_row. by rewrite !lookup_app_l by lia.
Qed.

(** C2, amended: the record is read in the order of the DB-IP file, start
    address, end address, a field that is not used, country, state or
    province, city, latitude, longitude: the country of a row is the fourth
    field, its state or province the fifth, its city the sixth (both after
    the encoding to ASCII), its latitude the seventh and its longitude the
    eighth; fields after the eighth are ignored.  In particular the line
    [1.1.1.18,1.1.1.20,NA,US,CA,(Example City in quotes),37.0,-122.0] gives
    the two rows of [1.1.1.18/31] and [1.1.1.20/32], of family 4 and of city
    [Example City]. *)
Theorem C2_fields_by_position :
  (forall DB expander line (s s' : state DB),
     expand_record DB expander line s = (Ret tt, s') ->
     exists r rows,
       Csv.read_record (stripped_line line) = Some r /\
       batch s' = batch s ++ rows /\
       Forall (fun row =>
                 r !! 3%nat = Some (country row) /\
                 Text.encode_ascii_ignore <$> r !! 4%nat = Some (stateprov row) /\
                 Text.encode_ascii_ignore <$> r !! 5%nat = Some (city row) /\
                 r !! 6%nat = Some (latitude row) /\
                 r !! 7%nat = Some (longitude row)) rows) /\
  (forall t net r extra,
     (8 <= length r)%nat -> make_row t net (r ++ extra) = make_row t net r) /\
  (exists s1 row1 row2,
     expand_record unit Netaddr.iprange_to_cidrs_v4 dbip_line (initial tt)
     = (Ret tt, s1) /\
     batch s1 = [row1; row2] /\
     ip row1 = "1.1.1.18/31" /\ ip row2 = "1.1.1.20/32" /\
     family row1 = 4 /\ family row2 = 4 /\
     city row1 = "Example City" /\ city row2 = "Example City" /\
     country row1 = "US" /\ stateprov row1 = "CA" /\
     latitude row1 = "37.0" /\ longitude row1 = "-122.0").
Proof.
  split; [|split].
  - intros DB expander line s s'.
    intros (r & r0 & r1 & nets & rows & Hr & _ & _ & _ & Hrows & Hb)%expand_record_rows.
    exists r, rows. repeat split; [done..|].
    eapply Forall2_Forall_r; [exact Hrows|]. simpl.
    intros net row _ (? & ? & ? & ? & ? & -> & -> & -> & -> & -> & ->)%make_row_ret.
    done.
  - apply make_row_trailing.
  - eexists _, _, _. split; [vm_compute; reflexivity|]. by vm_compute.
Qed.

Lemma C2_fields_by_position_witness :
  fst (expand_record unit Netaddr.iprange_to_cidrs_v4 dbip_line (initial tt))
  = Ret tt /\
  exists r rows,
    Csv.read_record (stripped_line dbip_line) = Some r /\
    batch (snd (expand_record unit Netaddr.iprange_to_cidrs_v4 dbip_line
                  (initial tt))) = [] ++ rows /\
    Forall (fun row =>
              r !! 3%nat = Some (country row) /\
              Text.encode_ascii_ignore <$> r !! 4%nat = Some (stateprov row) /\
              Text.encode_ascii_ignore <$> r !! 5%nat = Some (city row) /\
              r !! 6%nat = Some (latitude row) /\
              r !! 7%nat = Some (longitude row)) rows.
Proof.
  split; [by vm_compute|].
  apply (proj1 C2_fields_by_position unit Netaddr.iprange_to_cidrs_v4
           dbip_line (initial tt)).
  vm_compute. reflexivity.
Defined.

(** C2 as stated fails: on the line of the scenario, of seven fields with
    the country in the third, the loop body raises the index error of
    [r[7]] and no row is appended. *)
Lemma C2_counterexample :
  Csv.read_record (stripped_line spec_line)
  = Some ["1.1.1.18"; "1.1.1.20"; "US"; "CA"; "Example City"; "37.0"; "-122.0"] /\
  expand_record unit Netaddr.iprange_to_cidrs_v4 spec_line (initial tt)
  = (Raise IndexError, initial tt).
Proof. split; by vm_compute. Qed.

(** C8, amended: every row has the time zone offset 0, the time zone name
    [UTC] and the empty string for source tag. *)
Theorem C8_constant_columns DB expander line (s s' : state DB) :
  expand_record DB expander line s = (Ret tt, s') ->
  exists rows,
    batch s' = batch s ++ rows /\
    Forall (fun row =>
              timezone_offset row = 0 /\ timezone_name row = "UTC" /\
              isp_name row = EmptyString) rows.
Proof.
  intros (r & r0 & r1 & nets & rows & _ & _ & _ & _ & Hrows & Hb)%expand_record_rows.
  exists rows. split; [done|].
  eapply Forall2_Forall_r; [exact Hrows|]. simpl.
  intros net row _ (? & ? & ? & ? & ? & _ & _ & _ & _ & _ & ->)%make_row_ret.
  done.
Qed.

Lemma C8_constant_columns_witness :
  fst (expand_record unit Netaddr.iprange_to_cidrs_v4 dbip_line (initial tt))
  = Ret tt /\
  exists rows,
    batch (snd (expand_record unit Netaddr.iprange_to_cidrs_v4 dbip_line
                  (initial tt))) = [] ++ rows /\
    Forall (fun row =>
              timezone_offset row = 0 /\ timezone_name row = "UTC" /\
              isp_name row = EmptyString) rows.
Proof.
  split; [by vm_compute|].
  apply (C8_constant_columns unit Netaddr.iprange_to_cidrs_v4 dbip_line
           (initial tt)).
  vm_compute. reflexivity.
Defined.

(** C8 as stated fails: the source tag of a row of the DB-IP line is the
    empty string, which identifies nothing. *)
Lemma C8_counterexample :
  exists s1 row,
    expand_record unit Netaddr.iprange_to_cidrs_v4 dbip_line (initial tt)
    = (Ret tt, s1) /\
    batch s1 !! 0%nat = Some row /\
    ~ identifies_importer (isp_name row).
Proof.
  eexists _, _. split; [vm_compute; reflexivity|].
  split; [vm_compute; reflexivity|]. intros H. by apply H.
Qed.



(** C10: the single quotes are taken out of the whole line before the CSV
    reader sees it, so that no field of the record, and no text column of a
    row made from it, holds a single quote: the country, the latitude and
    the longitude as well as the city and the state or province (the family
    and the offset are integers; the network is the text the expander
    prints, which holds none). *)
Theorem C10_no_single_quote DB expander line (s s' : state DB) :
  (forall a b nets, expander a b = Some nets ->
                    Forall (fun net => Text.no_squote net = true) nets) ->
  expand_record DB expander line s = (Ret tt, s') ->
  Text.no_squote (stripped_line line) = true /\
  exists r rows,
    Csv.read_record (stripped_line line) = Some r /\
    Forall (fun f => Text.no_squote f = true) r /\
    batch s' = batch s ++ rows /\
    Forall (fun row =>
              Text.no_squote (ip row) = true /\
              Text.no_squote (city row) = true /\
              Text.no_squote (stateprov row) = true /\
              Text.no_squote (country row) = true /\
              Text.no_squote (latitude row) = true /\
              Text.no_squote (longitude row) = true /\
              Text.no_squote (timezone_name row) = true /\
              Text.no_squote (isp_name row) = true) rows.
Proof.
  intros Hnet.
  intros (r & r0 & r1 & nets & rows & Hr & _ & _ & Hnets & Hrows & Hb)%expand_record_rows.
  split; [apply remove_char_clean|].
  pose proof (read_record_all _ _ _ (remove_char_clean _) Hr) as Hclean.
  exists r, rows. repeat split; [done..|].
  pose proof (Hnet _ _ _ Hnets) as Hn.
  assert (forall i f, r !! i = Some f -> Text.no_squote f = true) as Hf.
  { intros i f Hi. by apply (Forall_lookup_1 _ _ _ _ Hclean Hi). }
  eapply Forall2_Forall_r; [exact Hrows|]. simpl.
  intros net row Hin (r3 & r4 & r5 & r6 & r7 & H3 & H4 & H5 & H6 & H7 & ->)%make_row_ret.
  rewrite Forall_forall in Hn.
  simpl. repeat split; eauto using encode_ascii_ignore_all.
Qed.

Lemma C10_no_single_quote_witness :
  Text.no_squote (stripped_line "1.1.1.18,1.1.1.20,EU,IT,L'Aquila,L'Aquila,42.3,13.4")
  = true /\
  exists r rows,
    Csv.read_record
      (stripped_line "1.1.1.18,1.1.1.20,EU,IT,L'Aquila,L'Aquila,42.3,13.4")
    = Some r /\
    Forall (fun f => Text.no_squote f = true) r /\
    batch (snd (expand_record unit Netaddr.iprange_to_cidrs_v4
                  "1.1.1.18,1.1.1.20,EU,IT,L'Aquila,L'Aquila,42.3,13.4"
                  (initial tt))) = [] ++ rows /\
    Forall (fun row =>
              Text.no_squote (ip row) = true /\
              Text.no_squote (city row) = true /\
              Text.no_squote (stateprov row) = true /\
              Text.no_squote (country row) = true /\
              Text.no_squote (latitude row) = true /\
              Text.no_squote (longitude row) = true /\
              Text.no_squote (timezone_name row) = true /\
              Text.no_squote (isp_name row) = true) rows.
Proof.
  apply (C10_no_single_quote unit Netaddr.iprange_to_cidrs_v4 _ (initial tt)).
  - apply iprange_to_cidrs_v4_clean.
  - vm_compute. reflexivity.
Defined.

(** ** The flush *)

Section FlushFacts.

Variable DB : Type.
Variable cursor_execute : statement -> DB -> option exn * DB.
Variable conn_commit : DB -> option exn * DB.

Local Abbreviation state := (state DB).
Local Abbreviation queryNoResults := (queryNoResults DB cursor_execute conn_commit).
Local Abbreviation flush := (flush DB cursor_execute conn_commit).
Local Abbreviation attempt_ := (attempt cursor_execute conn_commit).

(** One call of [queryNoResults] on a connected handler: the statement goes
    to the cursor once; a [ProgrammingError] is swallowed, any other
    exception is let through. *)
Lemma queryNoResults_spec q (s : state) :
  cursor s = true ->
  exists evs,
    trace (snd (queryNoResults q s)) = trace s ++ Execute q :: evs /\
    Forall (fun e => silent e = true) evs /\
    same_locals s (snd (queryNoResults q s)) /\
    cursor (snd (queryNoResults q s)) = true /\
    store (snd (queryNoResults q s)) = snd (attempt_ q (store s)) /\
    fst (queryNoResults q s)
    = match fst (attempt_ q (store s)) with
      | None => Ret (Some true)
      | Some ProgrammingError => Ret None
      | Some e => Raise e
      end.
Proof.
  intros Hc.
  unfold queryNoResults, attempt, try_except, execute, commit, bind,
    get, emit, modify, ret, raise.
  rewrite Hc. simpl.
  destruct (cursor_execute q (store s)) as [[e1|] d1]; simpl.
  - exists (if e1 is ProgrammingError then [LogQueryFailed] else []).
    destruct e1; simpl; rewrite <- ?app_assoc; repeat split; auto.
  - destruct (conn_commit d1) as [[e2|] d2]; simpl.
    + exists (Commit :: if e2 is ProgrammingError then [LogQueryFailed] else []).
      destruct e2; simpl; rewrite <- ?app_assoc; repeat split; auto.
    + exists [Commit]. simpl. rewrite <- ?app_assoc. repeat split; auto.
Qed.

Lemma loud_app t u : loud (t ++ u) = loud t ++ loud u.
Proof. apply filter_app. Qed.

Lemma loud_silent t : Forall (fun e => silent e = true) t -> loud t = [].
Proof.
  induction 1 as [|e t He _ IH]; [done|].
  unfold loud. rewrite filter_cons_False; [done|]. by rewrite He.
Qed.

Lemma same_locals_refl (s : state) : same_locals s s.
Proof. done. Qed.

Lemma same_locals_trans (s1 s2 s3 : state) :
  same_locals s1 s2 -> same_locals s2 s3 -> same_locals s1 s3.
Proof. unfold same_locals. intuition congruence. Qed.

Lemma upsert_statement_locals (s s' : state) :
  same_locals s s' -> upsert_statement DB s' = upsert_statement DB s.
Proof. intros (_ & _ & _ & Hv & Hb). unfold upsert_statement. by rewrite Hv, Hb. Qed.

(** The flush: one attempt; a second one, of the same statement, when the
    first let an exception through; that of the second is let through to
    the caller. *)
Lemma flush_spec (s : state) :
  cursor s = true ->
  let q := upsert_statement DB s in
  let a1 := attempt_ q (store s) in
  let a2 := attempt_ q (snd a1) in
  exists evs,
    trace (snd (flush s)) = trace s ++ evs /\
    same_locals s (snd (flush s)) /\
    cursor (snd (flush s)) = true /\
    match fst a1 with
    | None | Some ProgrammingError =>
        loud evs = [Execute q] /\ store (snd (flush s)) = snd a1 /\
        fst (flush s) = Ret tt
    | Some _ =>
        loud evs = [Execute q; Execute q] /\ store (snd (flush s)) = snd a2 /\
        fst (flush s) = match fst a2 with
                        | None | Some ProgrammingError => Ret tt
                        | Some e2 => Raise e2
                        end
    end.
Proof.
  intros Hc q a1 a2.
  destruct (queryNoResults_spec q s Hc) as (evs1 & Ht1 & Hs1 & Hl1 & Hc1 & Hst1 & Hr1).
  assert (flush s
          = match queryNoResults q s with
            | (Ret _, s1) => (Ret tt, s1)
            | (Raise _, s1) =>
                let s2 := snd (emit DB LogTryingAgain s1) in
                match queryNoResults (upsert_statement DB s2) s2 with
                | (Ret _, s3) => (Ret tt, s3)
                | (Raise e, s3) => (Raise e, s3)
                end
            end) as Hflush.
  { unfold flush, try_except, bind, get, ret. fold q.
    destruct (queryNoResults q s) as [[x|e] s1]; reflexivity. }
  rewrite Hflush. clear Hflush.
  destruct (queryNoResults q s) as [r1 s1]. simpl in Ht1, Hl1, Hc1, Hst1, Hr1.
  fold a1 in Hst1, Hr1. pose proof Hl1 as (? & ? & ? & ? & ?).
  assert (loud (Execute q :: evs1) = [Execute q]) as Hloud1.
  { change (Execute q :: evs1) with ([Execute q] ++ evs1).
    by rewrite loud_app, (loud_silent evs1). }
  destruct (fst a1) as [e1|] eqn:E1.
  2: { subst r1. exists (Execute q :: evs1). simpl. repeat split; assumption. }
  destruct (decide (e1 = ProgrammingError)) as [->|Hne].
  { subst r1. exists (Execute q :: evs1). simpl. repeat split; assumption. }
  assert (r1 = Raise e1) as -> by (by destruct e1).
  cbv zeta. set (s2 := snd (emit DB LogTryingAgain s1)).
  assert (same_locals s s2) as Hl2 by (by repeat split).
  assert (cursor s2 = true) as Hc2 by done.
  rewrite (upsert_statement_locals _ _ Hl2). fold q.
  destruct (queryNoResults_spec q s2 Hc2) as (evs2 & Ht2 & Hs2 & Hl3 & Hc3 & Hst3 & Hr3).
  assert (store s2 = snd a1) as Hst2 by done.
  rewrite Hst2 in Hst3, Hr3. fold a2 in Hst3, Hr3.
  destruct (queryNoResults q s2) as [r3 s3]. simpl in Ht2, Hl3, Hc3, Hst3, Hr3.
  exists (Execute q :: evs1 ++ LogTryingAgain :: Execute q :: evs2).
  assert (trace s3 = trace s ++ Execute q :: evs1 ++ LogTryingAgain :: Execute q :: evs2)
    as Ht3.
  { rewrite Ht2. unfold s2. simpl. rewrite Ht1. by rewrite <- !app_assoc. }
  assert (loud (Execute q :: evs1 ++ LogTryingAgain :: Execute q :: evs2)
          = [Execute q; Execute q]) as Hloud.
  { change (Execute q :: evs1 ++ LogTryingAgain :: Execute q :: evs2)
      with ([Execute q] ++ evs1 ++ [LogTryingAgain] ++ [Execute q] ++ evs2).
    rewrite !loud_app, (loud_silent evs1), (loud_silent evs2) by done.
    reflexivity. }
  assert (same_locals s s3) as Hl4 by (by eapply same_locals_trans).
  assert (match r3 with Ret _ => (Ret tt, s3) | Raise e => (Raise e, s3) end
          = (match fst a2 with
             | None | Some ProgrammingError => Ret tt
             | Some e2 => Raise e2
             end, s3)) as ->.
  { rewrite Hr3. destruct (fst a2) as [[]|]; reflexivity. }
  pose proof Hl4 as (? & ? & ? & ? & ?).
  simpl. destruct e1; try done; repeat split; assumption.
Qed.

Local Abbreviation bulk_insert := (bulk_insert DB cursor_execute conn_commit).
Local Abbreviation insert_last_batch :=
  (insert_last_batch DB cursor_execute conn_commit).

Lemma bulk_insert_spec (s : state) :
  bulk_insert s
  = if 5000 <=? count s then
      match flush (bulk_announced s) with
      | (Ret _, s') => (Ret tt, set_count DB 0 (set_sql_values DB EmptyString [] s'))
      | (Raise e, s') => (Raise e, s')
      end
    else (Ret tt, set_line_count DB (line_count s + 1) s).
Proof.
  unfold bulk_insert, bind, get, modify, emit, ret. simpl.
  destruct (5000 <=? count s); [|done].
  change (flush _) with (flush (bulk_announced s)).
  by destruct (flush (bulk_announced s)) as [[[]|e] s'].
Qed.

(** The last batch is flushed as the batches of the loop are: the
    announcement, inside the [try], raises nothing. *)
Lemma insert_last_batch_spec (s : state) :
  insert_last_batch s
  = if (0 <? String.length (sql_values s))%nat then flush (last_announced s)
    else (Ret tt, s).
Proof.
  unfold insert_last_batch, flush, try_except, queryNoResults, bind, get,
    modify, emit, ret. simpl.
  destruct (0 <? String.length (sql_values s))%nat; [|done].
  reflexivity.
Qed.

End FlushFacts.

(** ** The loop *)

Lemma count_events_app p t u :
  count_events p (t ++ u) = (count_events p t + count_events p u)%nat.
Proof. unfold count_events. by rewrite filter_app, length_app. Qed.

Lemma count_events_loud p t :
  (forall e, p e = true -> silent e = false) ->
  count_events p (loud t) = count_events p t.
Proof.
  intros Hp. unfold count_events, loud.
  induction t as [|e t IH]; [done|].
  destruct (silent e) eqn:Es.
  - rewrite (filter_cons_False (fun e => silent e = false)) by (by rewrite Es).
    rewrite IH. rewrite filter_cons_False; [done|].
    intros He. apply Hp in He. congruence.
  - rewrite (filter_cons_True (fun e => silent e = false)) by done.
    destruct (p e) eqn:Ep.
    + rewrite !filter_cons_True by done. simpl. by rewrite IH.
    + rewrite !filter_cons_False by (by rewrite Ep). done.
Qed.

Section LoopFacts.

Variable DB : Type.
Variable cursor_execute : statement -> DB -> option exn * DB.
Variable conn_commit : DB -> option exn * DB.
Variable iprange_to_cidrs : string -> string -> option (list string).

Local Abbreviation state := (state DB).
Local Abbreviation expand_record := (expand_record DB iprange_to_cidrs).
Local Abbreviation flush := (flush DB cursor_execute conn_commit).
Local Abbreviation bulk_insert := (bulk_insert DB cursor_execute conn_commit).
Local Abbreviation while_line :=
  (while_line DB cursor_execute conn_commit iprange_to_cidrs).
Local Abbreviation insert_last_batch :=
  (insert_last_batch DB cursor_execute conn_commit).

(** The events of a flush announce no insert. *)
Lemma flush_events (s : state) :
  cursor s = true ->
  exists evs,
    trace (snd (flush s)) = trace s ++ evs /\
    count_events is_bulk_insert evs = 0%nat /\
    count_events is_last_insert evs = 0%nat /\
    same_locals s (snd (flush s)) /\
    cursor (snd (flush s)) = true.
Proof.
  intros Hc.
  destruct (flush_spec DB cursor_execute conn_commit s Hc)
    as (evs & Ht & Hl & Hc' & Hcase).
  exists evs. repeat split; try apply Hl; try done.
  - rewrite <- (count_events_loud is_bulk_insert) by (by intros []).
    destruct (fst (attempt _ _ _ _)) as [[]|];
      destruct Hcase as (-> & _); reflexivity.
  - rewrite <- (count_events_loud is_last_insert) by (by intros []).
    destruct (fst (attempt _ _ _ _)) as [[]|];
      destruct Hcase as (-> & _); reflexivity.
Qed.

Lemma while_line_cons line rest (s : state) :
  (String.length line =? 0)%nat = false ->
  while_line (line :: rest) s
  = match expand_record line s with
    | (Ret _, s1) =>
        match bulk_insert s1 with
        | (Ret _, s2) => while_line rest s2
        | (Raise e, s2) => (Raise e, s2)
        end
    | (Raise e, s1) => (Raise e, s1)
    end.
Proof.
  intros Hne. simpl. rewrite Hne. unfold bind.
  destruct (expand_record line s) as [[[]|e] s1]; [|done].
  by destruct (bulk_insert s1) as [[[]|e] s2].
Qed.

Lemma consistent_empty (s : state) :
  consistent s -> batch s = [] -> count s = 0 /\ sql_values s = EmptyString.
Proof. intros [Hc Hv] Hb. rewrite Hb in Hc, Hv. by split. Qed.

(** Lines that give no row leave an empty batch empty, and nothing is
    flushed. *)
Lemma while_line_idle lines (s : state) :
  expanded_rows iprange_to_cidrs lines = Ret [] ->
  consistent s -> batch s = [] ->
  exists s', while_line lines s = (Ret tt, s') /\
    trace s' = trace s /\ batch s' = [] /\ sql_values s' = EmptyString /\
    cursor s' = cursor s /\ store s' = store s.
Proof.
  revert s. induction lines as [|line rest IH]; intros s Hrows Hcons Hb.
  - exists s. destruct (consistent_empty s Hcons Hb) as [_ Hv]. by repeat split.
  - simpl in Hrows. destruct (String.length line =? 0)%nat eqn:Hne.
    { exists s. simpl. rewrite Hne.
      destruct (consistent_empty s Hcons Hb) as [_ Hv]. by repeat split. }
    destruct (record_rows iprange_to_cidrs line) as [rows1|] eqn:E1; [|done].
    destruct (expanded_rows iprange_to_cidrs rest) as [rows2|] eqn:E2; [|done].
    injection Hrows as Hnil. apply app_eq_nil in Hnil as [-> ->].
    rewrite while_line_cons by done.
    destruct (expand_record_ret DB iprange_to_cidrs line [] s E1)
      as (s1 & -> & Hb1 & Hc1 & Hf1 & Hcons1).
    rewrite app_nil_r in Hb1. simpl in Hc1.
    destruct (consistent_empty s Hcons Hb) as [Hc0 _].
    rewrite bulk_insert_spec.
    replace (5000 <=? count s1) with false by (symmetry; apply Z.leb_gt; lia).
    destruct (IH (set_line_count DB (line_count s1 + 1) s1)) as (s' & -> & Ht & ?);
      [done|by apply Hcons1|simpl; congruence|].
    exists s'. destruct Hf1 as (Ht1 & Hs1 & Hcu1 & _).
    simpl in *. split; [done|]. split; [congruence|]. intuition congruence.
Qed.

(** When the rows of the lines fill the batch exactly, the loop and the
    last batch announce one bulk insert and no last insert. *)
Lemma while_line_exact lines rows (s : state) :
  expanded_rows iprange_to_cidrs lines = Ret rows ->
  consistent s -> cursor s = true -> count s < 5000 ->
  count s + Z.of_nat (length rows) = 5000 ->
  exists evs,
    trace (snd (bind DB (while_line lines) (fun _ => insert_last_batch) s))
    = trace s ++ evs /\
    count_events is_bulk_insert evs = 1%nat /\
    count_events is_last_insert evs = 0%nat /\
    cursor (snd (bind DB (while_line lines) (fun _ => insert_last_batch) s)) = true.
Proof.
  revert rows s. induction lines as [|line rest IH]; intros rows s Hrows Hcons Hcu Hlt Hsum.
  - injection Hrows as <-. simpl in Hsum. lia.
  - simpl in Hrows. destruct (String.length line =? 0)%nat eqn:Hne.
    { injection Hrows as <-. simpl in Hsum. lia. }
    destruct (record_rows iprange_to_cidrs line) as [rows1|] eqn:E1; [|done].
    destruct (expanded_rows iprange_to_cidrs rest) as [rows2|] eqn:E2; [|done].
    injection Hrows as <-. rewrite length_app, Nat2Z.inj_add in Hsum.
    unfold bind. rewrite while_line_cons by done.
    destruct (expand_record_ret DB iprange_to_cidrs line rows1 s E1)
      as (s1 & -> & Hb1 & Hc1 & Hf1 & Hcons1).
    specialize (Hcons1 Hcons).
    destruct Hf1 as (Ht1 & Hs1 & Hcu1 & _).
    rewrite bulk_insert_spec.
    destruct (5000 <=? count s1) eqn:Hfull.
    + apply Z.leb_le in Hfull.
      assert (length rows2 = 0%nat) as Hnil by lia.
      apply length_zero_iff_nil in Hnil as ->.
      destruct (flush_events (bulk_announced s1)) as (evs & Ht & Hb & Hl & Hloc & Hcu2);
        [simpl; congruence|].
      destruct (flush (bulk_announced s1)) as [[[]|e] s2]; simpl in Ht, Hloc, Hcu2.
      * set (s3 := set_count DB 0 (set_sql_values DB EmptyString [] s2)).
        destruct (while_line_idle rest s3 E2) as (s4 & -> & Ht4 & Hb4 & Hv4 & Hcu4 & _);
          [done|done|].
        rewrite insert_last_batch_spec, Hv4. simpl.
        exists (LogInserting (count s1) (total_count s1 + count s1)
                  (line_count s1 + 1) :: evs).
        split; [rewrite Ht4; simpl; rewrite Ht; simpl; rewrite Ht1;
                by rewrite <- app_assoc|].
        change (LogInserting ?a ?b ?c :: evs)
          with ([LogInserting a b c] ++ evs).
        rewrite !count_events_app, Hb, Hl.
        split; [reflexivity|]. split; [reflexivity|]. simpl in Hcu4. congruence.
      * exists (LogInserting (count s1) (total_count s1 + count s1)
                  (line_count s1 + 1) :: evs).
        simpl. split; [rewrite Ht; simpl; rewrite Ht1; by rewrite <- app_assoc|].
        change (LogInserting ?a ?b ?c :: evs)
          with ([LogInserting a b c] ++ evs).
        rewrite !count_events_app, Hb, Hl. by repeat split.
    + apply Z.leb_gt in Hfull.
      set (s2 := set_line_count DB (line_count s1 + 1) s1).
      destruct (IH rows2 s2 eq_refl) as (evs & Ht & ?); [done|simpl; congruence|done| |].
      { simpl. lia. }
      exists evs. unfold bind in Ht. split; [|done].
      rewrite Ht. simpl. by rewrite Ht1.
Qed.

End LoopFacts.

Lemma main_spec DB cursor_execute conn_commit expander lines (d : DB) :
  main DB cursor_execute conn_commit None expander lines (initial d)
  = match bind DB (while_line DB cursor_execute conn_commit expander lines)
            (fun _ => insert_last_batch DB cursor_execute conn_commit)
            (started d) with
    | (Ret _, s) => close DB s
    | (Raise e, s) => (Raise e, s)
    end.
Proof.
  unfold main, connectDb, bind, modify. simpl.
  change (set_sql_values DB EmptyString [] _) with (started d).
  destruct (while_line _ _ _ _ _ _) as [[[]|e] s]; [|done].
  by destruct (insert_last_batch _ _ _ _) as [[[]|e] s'].
Qed.

Lemma escapes_cases (o : option exn) :
  escapes o \/ o = None \/ o = Some ProgrammingError.
Proof.
  destruct o as [e|]; [|auto].
  destruct (decide (e = ProgrammingError)) as [->|Hne]; [auto|].
  left. by exists e.
Qed.

Lemma not_escapes (o : option exn) :
  ~ escapes o -> o = None \/ o = Some ProgrammingError.
Proof. intros H. by destruct (escapes_cases o) as [?|?]. Qed.

(** ** The threshold *)


Lemma expanded_rows_replicate expander line row n :
  (String.length line =? 0)%nat = false ->
  record_rows expander line = Ret [row] ->
  expanded_rows expander (replicate n line) = Ret (replicate n row).
Proof.
  intros Hne Hrow. induction n as [|n IH]; [done|].
  simpl. by rewrite Hne, Hrow, IH.
Qed.


(** ** The retry *)

(** C5, amended: a flush whose first attempt raises an exception other than
    a [ProgrammingError] hands the same statement to the cursor a second
    time, and no third; when the second attempt raises such an exception
    too, it leaves the flush, the batch and its text are as they were, the
    loop ends on it without looking at the lines that remain, and the
    last batch ends on it likewise.  A [ProgrammingError] does not leave
    [queryNoResults]: a first attempt that raises it is not repeated, and
    the flush returns as after a success. *)
Theorem C5_retry_once DB cursor_execute conn_commit :
  (forall (s : state DB),
     cursor s = true ->
     let q := upsert_statement DB s in
     let a1 := attempt cursor_execute conn_commit q (store s) in
     let a2 := attempt cursor_execute conn_commit q (snd a1) in
     let r := flush DB cursor_execute conn_commit s in
     (escapes (fst a1) ->
      (exists evs, trace (snd r) = trace s ++ evs /\
                   loud evs = [Execute q; Execute q]) /\
      same_locals s (snd r) /\
      (forall e2, fst a2 = Some e2 -> e2 <> ProgrammingError ->
                  fst r = Raise e2) /\
      (~ escapes (fst a2) -> fst r = Ret tt)) /\
     (~ escapes (fst a1) ->
      (exists evs, trace (snd r) = trace s ++ evs /\ loud evs = [Execute q]) /\
      same_locals s (snd r) /\ fst r = Ret tt)) /\
  (forall expander line rest (s0 s1 s' : state DB) e,
     (String.length line =? 0)%nat = false ->
     expand_record DB expander line s0 = (Ret tt, s1) ->
     cursor s1 = true -> 5000 <= count s1 ->
     flush DB cursor_execute conn_commit (bulk_announced s1) = (Raise e, s') ->
     while_line DB cursor_execute conn_commit expander (line :: rest) s0
     = (Raise e, s') /\
     sql_values s' = sql_values s1 /\ batch s' = batch s1 /\
     count s' = count s1) /\
  (forall (s s' : state DB) e,
     cursor s = true -> (0 <? String.length (sql_values s))%nat = true ->
     flush DB cursor_execute conn_commit (last_announced s) = (Raise e, s') ->
     insert_last_batch DB cursor_execute conn_commit s = (Raise e, s') /\
     sql_values s' = sql_values s /\ batch s' = batch s /\ count s' = count s).
Proof.
  split; [|split].
  - intros s Hcu q a1 a2 r.
    pose proof (flush_spec DB cursor_execute conn_commit s Hcu) as Hspec.
    cbv zeta in Hspec. destruct Hspec as (evs & Ht & Hl & _ & Hcase).
    subst r a2 a1 q. split.
    + intros (e1 & He1 & Hne). rewrite He1 in Hcase.
      set (q := upsert_statement DB s) in *.
      set (a1 := attempt cursor_execute conn_commit q (store s)) in *.
      set (a2 := attempt cursor_execute conn_commit q (snd a1)) in *.
      set (r := flush DB cursor_execute conn_commit s) in *.
      assert (loud evs = [Execute q; Execute q] /\
              fst r = match fst a2 with
                      | None | Some ProgrammingError => Ret tt
                      | Some e2 => Raise e2
                      end) as [Hloud Hr].
      { destruct e1; try done; by destruct Hcase as (? & _ & ?). }
      split; [by exists evs|]. split; [done|]. split.
      * intros e2 He2 Hne2. rewrite Hr, He2. by destruct e2.
      * intros [He2|He2]%not_escapes; by rewrite Hr, He2.
    + intros [He1|He1]%not_escapes; rewrite He1 in Hcase;
        destruct Hcase as (Hloud & _ & Hr); (split; [by exists evs|done]).
  - intros expander line rest s0 s1 s' e Hne Hexp Hcu Hfull Hflush.
    rewrite while_line_cons, Hexp, bulk_insert_spec by done.
    apply Z.leb_le in Hfull. rewrite Hfull, Hflush. split; [done|].
    destruct (flush_spec DB cursor_execute conn_commit (bulk_announced s1))
      as (_ & _ & Hl & _); [done|].
    rewrite Hflush in Hl. by destruct Hl as (_ & ? & _ & ? & ?).
  - intros s s' e Hcu Hlen Hflush.
    rewrite insert_last_batch_spec, Hlen, Hflush. split; [done|].
    destruct (flush_spec DB cursor_execute conn_commit (last_announced s))
      as (_ & _ & Hl & _); [done|].
    rewrite Hflush in Hl. by destruct Hl as (_ & ? & _ & ? & ?).
Qed.

Lemma C5_retry_once_witness :
  let s := last_announced
             (snd (expand_record unit Netaddr.iprange_to_cidrs_v4 dbip_line
                     (started tt))) in
  let q := upsert_statement unit s in
  let r := flush unit fail_execute accept_commit s in
  cursor s = true /\
  escapes (fst (attempt fail_execute accept_commit q (store s))) /\
  (exists evs, trace (snd r) = trace s ++ evs /\
               loud evs = [Execute q; Execute q]) /\
  same_locals s (snd r) /\
  fst r = Raise DatabaseError.
Proof.
  intros s q r.
  assert (cursor s = true) as Hcu by reflexivity.
  assert (escapes (fst (attempt fail_execute accept_commit q (store s)))) as He.
  { exists DatabaseError. split; [reflexivity|discriminate]. }
  destruct (proj1 (proj1 (C5_retry_once unit fail_execute accept_commit) s Hcu) He)
    as (Hev & Hl & Hraise & _).
  split; [exact Hcu|]. split; [exact He|]. split; [exact Hev|].
  split; [exact Hl|]. apply Hraise; [reflexivity|discriminate].
Defined.

(** C5 as stated fails: when the database refuses the statement with a
    [ProgrammingError], the statement of the last batch goes to the cursor
    once and is not tried again, the failure is logged and not surfaced, and
    the run ends as after a success. *)
Lemma C5_counterexample :
  let r := main unit refuse_execute accept_commit None
             Netaddr.iprange_to_cidrs_v4 [dbip_line] (initial tt) in
  fst r = Ret tt /\
  count_events is_execute (trace (snd r)) = 1%nat /\
  LogQueryFailed ∈ trace (snd r) /\
  LogTryingAgain ∉ trace (snd r).
Proof.
  vm_compute. split; [reflexivity|]. split; [reflexivity|]. split.
  - do 2 right. left.
  - intros H. repeat (apply elem_of_cons in H as [H|H]; [discriminate|]).
    by apply elem_of_nil in H.
Qed.

(** ** The statements of a run *)

Section Statements.

Variable DB : Type.
Variable cursor_execute : statement -> DB -> option exn * DB.
Variable conn_commit : DB -> option exn * DB.
Variable py_connect : option exn.
Variable iprange_to_cidrs : string -> string -> option (list string).

Local Abbreviation state := (state DB).
Local Abbreviation queryNoResults := (queryNoResults DB cursor_execute conn_commit).
Local Abbreviation flush := (flush DB cursor_execute conn_commit).
Local Abbreviation bulk_insert := (bulk_insert DB cursor_execute conn_commit).
Local Abbreviation expand_record := (expand_record DB iprange_to_cidrs).
Local Abbreviation while_line :=
  (while_line DB cursor_execute conn_commit iprange_to_cidrs).
Local Abbreviation insert_last_batch :=
  (insert_last_batch DB cursor_execute conn_commit).
Local Abbreviation main :=
  (main DB cursor_execute conn_commit py_connect iprange_to_cidrs).

Lemma grows_refl P (s s' : state) : trace s' = trace s -> grows P s s'.
Proof. intros H. exists []. by rewrite app_nil_r. Qed.

Lemma grows_trans P (s1 s2 s3 : state) :
  grows P s1 s2 -> grows P s2 s3 -> grows P s1 s3.
Proof.
  intros (e1 & H1 & F1) (e2 & H2 & F2). exists (e1 ++ e2).
  split; [by rewrite H2, H1, <- app_assoc|by apply Forall_app].
Qed.

Lemma grows_one P (s s' : state) e :
  trace s' = trace s ++ [e] -> P e -> grows P s s'.
Proof. intros H He. exists [e]. split; [done|by constructor]. Qed.

Lemma upsert_statement_is_upsert (s : state) :
  is_upsert (Execute (upsert_statement DB s)).
Proof. by exists (sql_values s). Qed.

Lemma queryNoResults_trace q (s : state) :
  is_upsert (Execute q) -> grows is_upsert s (snd (queryNoResults q s)).
Proof.
  intros Hq.
  unfold queryNoResults, try_except, execute, commit, bind, get, emit, modify,
    ret, raise.
  destruct (cursor s); simpl.
  - destruct (cursor_execute q (store s)) as [[e1|] d1]; simpl.
    + exists (Execute q :: if e1 is ProgrammingError then [LogQueryFailed] else []).
      destruct e1; simpl; rewrite <- ?app_assoc; split; try done;
        repeat constructor; done.
    + destruct (conn_commit d1) as [[e2|] d2]; simpl.
      * exists (Execute q :: Commit
                  :: if e2 is ProgrammingError then [LogQueryFailed] else []).
        destruct e2; simpl; rewrite <- ?app_assoc; split; try done;
          repeat constructor; done.
      * exists [Execute q; Commit]. rewrite <- ?app_assoc.
        split; [done|]. by repeat constructor.
  - by apply (grows_one _ _ _ LogNotConnected).
Qed.

Lemma flush_trace (s : state) : grows is_upsert s (snd (flush s)).
Proof.
  unfold flush, try_except, bind, get, ret.
  pose proof (queryNoResults_trace (upsert_statement DB s) s
                (upsert_statement_is_upsert s)) as H1.
  destruct (queryNoResults (upsert_statement DB s) s) as [[x|e] s1]; [done|].
  simpl in H1. unfold emit, modify. simpl.
  set (s2 := {| total_count := total_count s1; count := count s1;
                line_count := line_count s1; sql_values := sql_values s1;
                batch := batch s1; cursor := cursor s1; store := store s1;
                trace := trace s1 ++ [LogTryingAgain] |}).
  pose proof (queryNoResults_trace (upsert_statement DB s2) s2
                (upsert_statement_is_upsert s2)) as H2.
  assert (grows is_upsert s1 s2) as H12 by (by apply (grows_one _ _ _ LogTryingAgain)).
  destruct (queryNoResults (upsert_statement DB s2) s2) as [[x|e'] s3];
    simpl in *; eauto using grows_trans.
Qed.

Lemma bulk_insert_trace (s : state) : grows is_upsert s (snd (bulk_insert s)).
Proof.
  rewrite bulk_insert_spec. destruct (5000 <=? count s); [|by apply grows_refl].
  pose proof (flush_trace (bulk_announced s)) as H.
  assert (grows is_upsert s (bulk_announced s)) as H0.
  { by eapply grows_one. }
  destruct (flush (bulk_announced s)) as [[[]|e] s1]; simpl in *.
  - eapply grows_trans; [exact H0|]. eapply grows_trans; [exact H|].
    by apply grows_refl.
  - by eapply grows_trans.
Qed.

Lemma expand_record_trace line (s : state) :
  trace (snd (expand_record line s)) = trace s.
Proof.
  destruct (record_rows iprange_to_cidrs line) as [rows|e] eqn:E.
  - by destruct (expand_record_ret DB iprange_to_cidrs line rows s E)
      as (s1 & -> & _ & _ & (? & _) & _).
  - by destruct (expand_record_raise DB iprange_to_cidrs line e s E)
      as (s1 & -> & (? & _)).
Qed.

Lemma while_line_trace lines (s : state) :
  grows is_upsert s (snd (while_line lines s)).
Proof.
  revert s. induction lines as [|line rest IH]; intros s; [by apply grows_refl|].
  destruct (String.length line =? 0)%nat eqn:Hne.
  { simpl. rewrite Hne. by apply grows_refl. }
  rewrite while_line_cons by done.
  pose proof (expand_record_trace line s) as H1.
  destruct (expand_record line s) as [[[]|e] s1]; simpl in H1;
    [|by apply grows_refl].
  pose proof (bulk_insert_trace s1) as H2.
  destruct (bulk_insert s1) as [[[]|e] s2]; simpl in H2.
  - eapply grows_trans; [by apply grows_refl|].
    eapply grows_trans; [exact H2|apply IH].
  - eapply grows_trans; [by apply grows_refl|exact H2].
Qed.

Lemma insert_last_batch_trace (s : state) :
  grows is_upsert s (snd (insert_last_batch s)).
Proof.
  rewrite insert_last_batch_spec.
  destruct (0 <? String.length (sql_values s))%nat; [|by apply grows_refl].
  eapply grows_trans; [|apply flush_trace]. by eapply grows_one.
Qed.

(** Every statement a run hands to the cursor is the INSERT, some rows and
    the conflict clause. *)
Lemma main_trace lines (d : DB) :
  Forall is_upsert (trace (snd (main lines (initial d)))).
Proof.
  assert (grows is_upsert (initial d) (snd (main lines (initial d))))
    as (evs & -> & H); [|done].
  destruct py_connect as [e|].
  { unfold main, connectDb, bind, emit, modify, raise.
    destruct e; simpl; first [by apply grows_refl | by eapply grows_one]. }
  rewrite main_spec. unfold bind.
  assert (grows is_upsert (initial d) (started d)) as H0 by (by apply grows_refl).
  pose proof (while_line_trace lines (started d)) as H1.
  destruct (while_line lines (started d)) as [[[]|e] s1]; simpl in H1 |- *.
  2: { eapply grows_trans; [exact H0|exact H1]. }
  pose proof (insert_last_batch_trace s1) as H2.
  destruct (insert_last_batch s1) as [[[]|e] s2]; simpl in H2 |- *.
  2: { eapply grows_trans; [exact H0|]. eapply grows_trans; [exact H1|exact H2]. }
  eapply grows_trans; [exact H0|]. eapply grows_trans; [exact H1|].
  eapply grows_trans; [exact H2|].
  unfold close, bind, get, emit, modify, ret.
  destruct (cursor s2); simpl; [by eapply grows_one|by apply grows_refl].
Qed.

End Statements.

(** ** The table *)

Lemma sql_conflict_read :
  Pg.read_conflict_clause sql_conflict = Some geo_ip_conflict.
Proof. reflexivity. Qed.

Lemma on_conflict_refreshed old new :
  Pg.on_conflict geo_ip_conflict old new = refreshed old new.
Proof. reflexivity. Qed.

Lemma upsert_rows_fold t rows :
  Pg.upsert_rows t rows = fold_left (Pg.upsert_row geo_ip_conflict) rows t.
Proof. unfold Pg.upsert_rows. by rewrite sql_conflict_read. Qed.

Lemma upsert_row_lookup (t : gmap string geo_row) r k :
  Pg.upsert_row geo_ip_conflict t r !! k
  = if decide (ip r = k) then upsert_cell (t !! k) r else t !! k.
Proof.
  unfold Pg.upsert_row, upsert_cell. case_decide as Hk.
  - subst k. destruct (t !! ip r) as [old|]; by rewrite lookup_insert_eq.
  - destruct (t !! ip r) as [old|]; by rewrite lookup_insert_ne.
Qed.

Lemma fold_upsert_lookup rows (t : gmap string geo_row) k :
  fold_left (Pg.upsert_row geo_ip_conflict) rows t !! k
  = fold_left upsert_cell (filter (fun r => ip r = k) rows) (t !! k).
Proof.
  revert t. induction rows as [|r rows IH]; intros t; [done|].
  simpl. rewrite IH, upsert_row_lookup.
  case_decide as Hk.
  - by rewrite filter_cons_True.
  - by rewrite filter_cons_False.
Qed.

Lemma row_ext x y : same_geo x y -> same_rest x y -> x = y.
Proof.
  destruct x, y. unfold same_geo, same_rest. simpl.
  intros (-> & -> & -> & -> & ->) (-> & -> & -> & -> & ->). reflexivity.
Qed.

Lemma upsert_cell_geo o z :
  exists x, upsert_cell o z = Some x /\ same_geo x z.
Proof. destruct o as [old|]; eexists; (split; [reflexivity|done]). Qed.

Lemma fold_cell_rest rows x :
  exists y, fold_left upsert_cell rows (Some x) = Some y /\ same_rest y x.
Proof.
  induction rows as [|z rows IH] using rev_ind.
  - by exists x.
  - destruct IH as (y & Hy & Hrest). rewrite fold_left_app, Hy. simpl.
    eexists. split; [reflexivity|]. exact Hrest.
Qed.

(** Upserting the same rows a second time changes nothing: the row of a key
    has the geographic columns of the last row of that key already. *)
Lemma fold_cell_idem rows o :
  fold_left upsert_cell rows (fold_left upsert_cell rows o)
  = fold_left upsert_cell rows o.
Proof.
  destruct rows as [|z rows _] using rev_ind; [done|].
  rewrite (fold_left_app _ rows [z] o). simpl.
  destruct (upsert_cell_geo (fold_left upsert_cell rows o) z) as (x & -> & Hx).
  rewrite fold_left_app. simpl.
  destruct (fold_cell_rest rows x) as (y & -> & Hy).
  unfold upsert_cell. f_equal. apply row_ext.
  - destruct Hx as (? & ? & ? & ? & ?). by repeat split.
  - exact Hy.
Qed.

Lemma upsert_all_idem rows (t : gmap string geo_row) :
  fold_left (Pg.upsert_row geo_ip_conflict) rows
    (fold_left (Pg.upsert_row geo_ip_conflict) rows t)
  = fold_left (Pg.upsert_row geo_ip_conflict) rows t.
Proof.
  apply map_eq. intros k. rewrite !fold_upsert_lookup. apply fold_cell_idem.
Qed.



(** ** Two runs on tables that differ *)

Section TwoRuns.

Variable S : Type.
Variable verdict : string -> S -> option exn * S.
Variable iprange_to_cidrs : string -> string -> option (list string).

Local Abbreviation server := (Pg.server S).
Local Abbreviation state := (state server).
Local Abbreviation pg_attempt := (attempt (Pg.pg_execute verdict) Pg.pg_commit).
Local Abbreviation flush := (flush server (Pg.pg_execute verdict) Pg.pg_commit).
Local Abbreviation bulk_insert :=
  (bulk_insert server (Pg.pg_execute verdict) Pg.pg_commit).
Local Abbreviation expand_record := (expand_record server iprange_to_cidrs).
Local Abbreviation while_line :=
  (while_line server (Pg.pg_execute verdict) Pg.pg_commit iprange_to_cidrs).
Local Abbreviation insert_last_batch :=
  (insert_last_batch server (Pg.pg_execute verdict) Pg.pg_commit).
Local Abbreviation upsert_all :=
  (fun rows t => fold_left (Pg.upsert_row geo_ip_conflict) rows t).

Lemma sim_consistent (s s' : state) : sim s s' -> consistent s -> consistent s'.
Proof.
  intros ((_ & Hc & _ & Hv & Hb) & _) [H1 H2]. unfold consistent.
  by rewrite Hc, Hv, Hb.
Qed.

Lemma run_agree_seq (s s' : state) x x' y y' :
  run_agree s s' x x' -> run_agree (snd x) (snd x') y y' -> run_agree s s' y y'.
Proof.
  intros (_ & _ & rows1 & H1 & H1') (Hr & Hs & rows2 & H2 & H2').
  split; [done|]. split; [done|]. exists (rows1 ++ rows2).
  rewrite !fold_left_app, <- H1, <- H1'. by split.
Qed.

(** One attempt on two servers in the same session: the same verdict, the
    same rows into both tables. *)
Lemma pg_attempt_agree q (d d' : server) :
  Pg.sess d' = Pg.sess d ->
  fst (pg_attempt q d') = fst (pg_attempt q d) /\
  Pg.sess (snd (pg_attempt q d')) = Pg.sess (snd (pg_attempt q d)) /\
  exists rows,
    Pg.table (snd (pg_attempt q d)) = upsert_all rows (Pg.table d) /\
    Pg.table (snd (pg_attempt q d')) = upsert_all rows (Pg.table d').
Proof.
  intros Hs. unfold attempt, Pg.pg_execute, Pg.pg_commit. rewrite Hs.
  destruct (verdict (stmt_text q) (Pg.sess d)) as [[e|] s1]; simpl.
  - split; [done|]. split; [done|]. by exists [].
  - split; [done|]. split; [done|]. exists (stmt_rows q).
    by rewrite !upsert_rows_fold.
Qed.

Lemma flush_agree (s s' : state) :
  sim s s' -> consistent s -> cursor s = true ->
  run_agree s s' (flush s) (flush s').
Proof.
  intros Hsim Hcons Hcu. pose proof Hsim as (Hl & Hcu' & Hsess).
  rewrite Hcu in Hcu'.
  pose proof (flush_spec server (Pg.pg_execute verdict) Pg.pg_commit s Hcu) as H1.
  pose proof (flush_spec server (Pg.pg_execute verdict) Pg.pg_commit s' Hcu') as H2.
  cbv zeta in H1, H2.
  rewrite (upsert_statement_locals _ _ _ Hl) in H2.
  set (q := upsert_statement server s) in *.
  destruct H1 as (evs & _ & Hl1 & Hc1 & Hcase1).
  destruct H2 as (evs' & _ & Hl2 & Hc2 & Hcase2).
  destruct (pg_attempt_agree q (store s) (store s') Hsess)
    as (Hv1 & Hs1 & rows1 & Ht1 & Ht1').
  destruct (pg_attempt_agree q _ _ Hs1) as (Hv2 & Hs2 & rows2 & Ht2 & Ht2').
  rewrite Hv1 in Hcase2. rewrite Hv2 in Hcase2.
  assert (same_locals (snd (flush s)) (snd (flush s'))) as Hloc.
  { destruct Hl as (? & ? & ? & ? & ?), Hl1 as (? & ? & ? & ? & ?),
      Hl2 as (? & ? & ? & ? & ?). unfold same_locals. intuition congruence. }
  assert (consistent (snd (flush s))) as Hcons'.
  { destruct Hl1 as (? & Hc & ? & Hv & Hb), Hcons as [? ?].
    unfold consistent. by rewrite Hc, Hv, Hb. }
  assert (fst (flush s) = fst (flush s') /\
          Pg.sess (store (snd (flush s'))) = Pg.sess (store (snd (flush s))) /\
          exists rows,
            Pg.table (store (snd (flush s)))
            = upsert_all rows (Pg.table (store s)) /\
            Pg.table (store (snd (flush s')))
            = upsert_all rows (Pg.table (store s'))) as (Hr & Hse & Hrows).
  { destruct (fst (pg_attempt q (store s))) as [e1|].
    - destruct (decide (e1 = ProgrammingError)) as [->|Hne].
      + destruct Hcase1 as (_ & -> & ->), Hcase2 as (_ & -> & ->). eauto.
      + assert (store (snd (flush s)) = snd (pg_attempt q (snd (pg_attempt q (store s))))
                /\ store (snd (flush s')) = snd (pg_attempt q (snd (pg_attempt q (store s'))))
                /\ fst (flush s) = fst (flush s')) as (-> & -> & ->).
        { destruct e1; try done;
            destruct Hcase1 as (_ & -> & ->), Hcase2 as (_ & -> & ->); done. }
        split; [done|]. split; [done|]. exists (rows1 ++ rows2).
        rewrite !fold_left_app, <- Ht1, <- Ht1'. by split.
    - destruct Hcase1 as (_ & -> & ->), Hcase2 as (_ & -> & ->). eauto. }
  split; [done|]. split; [|done].
  intros _. split; [|done]. split; [done|]. split; [congruence|done].
Qed.

Lemma run_agree_ret (s s' : state) :
  sim s s' -> consistent s -> cursor s = true ->
  run_agree s s' (Ret tt, s) (Ret tt, s').
Proof. intros. split; [done|]. split; [done|]. by exists []. Qed.

Lemma run_agree_frame (s s' s1 s1' : state) (x x' : result unit) :
  store s1 = store s -> store s1' = store s' -> x = x' ->
  (x = Ret tt -> sim s1 s1' /\ consistent s1 /\ cursor s1 = true) ->
  run_agree s s' (x, s1) (x', s1').
Proof.
  intros Hs Hs' Hx H. split; [done|]. split; [done|]. exists [].
  simpl. by rewrite Hs, Hs'.
Qed.

Lemma expand_record_agree line (s s' : state) :
  sim s s' -> consistent s -> cursor s = true ->
  run_agree s s' (expand_record line s) (expand_record line s').
Proof.
  intros Hsim Hcons Hcu. pose proof (sim_consistent _ _ Hsim Hcons) as Hcons'.
  destruct Hsim as ((Htc & Hc & Hlc & Hv & Hb) & Hcu' & Hse).
  destruct (record_rows iprange_to_cidrs line) as [rows|e] eqn:E.
  - destruct (expand_record_ret server iprange_to_cidrs line rows s E)
      as (s1 & -> & Hb1 & Hc1 & (_ & Hs1 & Hcu1 & Htc1 & Hlc1) & Hk1).
    destruct (expand_record_ret server iprange_to_cidrs line rows s' E)
      as (s1' & -> & Hb1' & Hc1' & (_ & Hs1' & Hcu1' & Htc1' & Hlc1') & Hk1').
    apply run_agree_frame; [done..|]. intros _.
    specialize (Hk1 Hcons). specialize (Hk1' Hcons').
    split; [|split; [done|congruence]].
    split; [|split; [congruence|by rewrite Hs1, Hs1']].
    unfold same_locals. destruct Hk1 as [_ ->], Hk1' as [_ ->].
    rewrite Hb1, Hb1', Hc1, Hc1', Htc1, Htc1', Hlc1, Hlc1', Hb, Hc, Htc, Hlc.
    done.
  - destruct (expand_record_raise server iprange_to_cidrs line e s E)
      as (s1 & -> & (_ & Hs1 & _)).
    destruct (expand_record_raise server iprange_to_cidrs line e s' E)
      as (s1' & -> & (_ & Hs1' & _)).
    by apply run_agree_frame.
Qed.

Lemma bulk_insert_agree (s s' : state) :
  sim s s' -> consistent s -> cursor s = true ->
  run_agree s s' (bulk_insert s) (bulk_insert s').
Proof.
  intros Hsim Hcons Hcu.
  pose proof Hsim as ((Htc & Hc & Hlc & Hv & Hb) & Hcu' & Hse).
  rewrite !bulk_insert_spec, Hc.
  destruct (5000 <=? count s).
  - assert (run_agree (bulk_announced s) (bulk_announced s')
              (flush (bulk_announced s)) (flush (bulk_announced s')))
      as (Hr & Hret & rows & Ht & Ht').
    { apply flush_agree; [|done|done].
      split; [|done]. unfold same_locals. simpl. by rewrite Htc, Hc, Hlc, Hv, Hb. }
    destruct (flush (bulk_announced s)) as [[[]|e] s2],
             (flush (bulk_announced s')) as [[[]|e'] s2']; simpl in *; try done.
    + split; [done|]. split; [|by exists rows]. intros _.
      destruct (Hret eq_refl) as (((? & ? & ? & ? & ?) & ? & ?) & ? & ?).
      split; [|done]. split; [|done]. unfold same_locals. simpl. by repeat split.
    + split; [done|]. split; [done|]. by exists rows.
  - apply run_agree_frame; [done..|]. intros _.
    split; [|done]. split; [|done]. unfold same_locals. simpl.
    by rewrite Htc, Hc, Hlc, Hv, Hb.
Qed.

Lemma while_line_agree lines (s s' : state) :
  sim s s' -> consistent s -> cursor s = true ->
  run_agree s s' (while_line lines s) (while_line lines s').
Proof.
  revert s s'. induction lines as [|line rest IH]; intros s s' Hsim Hcons Hcu.
  - by apply run_agree_ret.
  - destruct (String.length line =? 0)%nat eqn:Hne.
    { simpl. rewrite Hne. by apply run_agree_ret. }
    rewrite !while_line_cons by done.
    pose proof (expand_record_agree line s s' Hsim Hcons Hcu) as H1.
    destruct (expand_record line s) as [[[]|e] s1] eqn:E1,
             (expand_record line s') as [[[]|e'] s1'] eqn:E1';
      try (by destruct H1 as (? & _)); [|done].
    destruct (proj1 (proj2 H1) eq_refl) as (Hsim1 & Hcons1 & Hcu1).
    pose proof (bulk_insert_agree s1 s1' Hsim1 Hcons1 Hcu1) as H2.
    simpl in H2.
    destruct (bulk_insert s1) as [[[]|e] s2] eqn:E2,
             (bulk_insert s1') as [[[]|e'] s2'] eqn:E2';
      try (by destruct H2 as (? & _)).
    + destruct (proj1 (proj2 H2) eq_refl) as (Hsim2 & Hcons2 & Hcu2).
      eapply run_agree_seq; [exact H1|]. eapply run_agree_seq; [exact H2|].
      by apply IH.
    + eapply run_agree_seq; [exact H1|]. exact H2.
Qed.

Lemma insert_last_batch_agree (s s' : state) :
  sim s s' -> consistent s -> cursor s = true ->
  run_agree s s' (insert_last_batch s) (insert_last_batch s').
Proof.
  intros Hsim Hcons Hcu.
  pose proof Hsim as ((Htc & Hc & Hlc & Hv & Hb) & Hcu' & Hse).
  rewrite !insert_last_batch_spec, Hv.
  destruct (0 <? String.length (sql_values s))%nat; [|by apply run_agree_ret].
  assert (run_agree (last_announced s) (last_announced s')
            (flush (last_announced s)) (flush (last_announced s'))) as H.
  { apply flush_agree; [|done|done].
    split; [|done]. unfold same_locals. simpl. by rewrite Htc, Hc, Hlc, Hv, Hb. }
  exact H.
Qed.

(** The rows a run puts into the table do not depend on the table. *)
Lemma main_agree py_connect lines (d d' : server) :
  Pg.sess d' = Pg.sess d ->
  exists rows,
    Pg.table (store (snd (main server (Pg.pg_execute verdict) Pg.pg_commit
                            py_connect iprange_to_cidrs lines (initial d))))
    = upsert_all rows (Pg.table d) /\
    Pg.table (store (snd (main server (Pg.pg_execute verdict) Pg.pg_commit
                            py_connect iprange_to_cidrs lines (initial d'))))
    = upsert_all rows (Pg.table d').
Proof.
  intros Hse. destruct py_connect as [e|].
  { exists []. by destruct e. }
  rewrite !main_spec.
  assert (sim (started d) (started d')) as Hsim by done.
  assert (consistent (started d)) as Hcons by done.
  pose proof (while_line_agree lines _ _ Hsim Hcons eq_refl) as H1.
  unfold bind.
  destruct (while_line lines (started d)) as [[[]|e] s1],
           (while_line lines (started d')) as [[[]|e'] s1'];
    try (by destruct H1 as (? & _)).
  - destruct (proj1 (proj2 H1) eq_refl) as (Hsim1 & Hcons1 & Hcu1).
    pose proof (insert_last_batch_agree s1 s1' Hsim1 Hcons1 Hcu1) as H2.
    pose proof (run_agree_seq _ _ _ _ _ _ H1 H2) as (Hr & Hret & rows & Ht & Ht').
    exists rows. simpl in Ht, Ht'.
    destruct (insert_last_batch s1) as [[[]|e] s2],
             (insert_last_batch s1') as [[[]|e'] s2']; try done.
    unfold close, bind, get, emit, modify, ret.
    destruct (cursor s2), (cursor s2'); done.
  - destruct H1 as (_ & _ & rows & Ht & Ht'). by exists rows.
Qed.

End TwoRuns.

Lemma upsert_row_keyed (t : gmap string geo_row) r :
  keyed t -> keyed (Pg.upsert_row geo_ip_conflict t r).
Proof.
  intros Ht k row. rewrite upsert_row_lookup. case_decide as Hk; [|apply Ht].
  unfold upsert_cell. destruct (t !! k) as [old|] eqn:E; intros [= <-]; [|done].
  simpl. by apply Ht.
Qed.

Lemma upsert_all_keyed rows (t : gmap string geo_row) :
  keyed t -> keyed (fold_left (Pg.upsert_row geo_ip_conflict) rows t).
Proof.
  revert t. induction rows as [|r rows IH]; intros t Ht; [done|].
  simpl. by apply IH, upsert_row_keyed.
Qed.


(** ** The range expander *)

Section Blocks.

Local Abbreviation p k := (2 ^ Z.of_nat k).

Lemma p_pos k : 0 < p k.
Proof. apply Z.pow_pos_nonneg; lia. Qed.

Lemma p_succ k : p (S k) = 2 * p k.
Proof. rewrite Nat2Z.inj_succ, Z.pow_succ_r; lia. Qed.

Lemma p_le i j : (i <= j)%nat -> p i <= p j.
Proof. intros H. apply Z.pow_le_mono_r; lia. Qed.

Lemma p_lt i j : (i < j)%nat -> p i < p j.
Proof. intros H. apply Z.pow_lt_mono_r; lia. Qed.

Lemma p_lt_inv i j : p i < p j -> (i < j)%nat.
Proof.
  intros H. destruct (decide (i < j)%nat) as [|Hn]; [done|].
  pose proof (p_le j i ltac:(lia)). lia.
Qed.

Lemma p_le_inv i j : p i <= p j -> (i <= j)%nat.
Proof.
  intros H. destruct (decide (i <= j)%nat) as [|Hn]; [done|].
  pose proof (p_lt j i ltac:(lia)). lia.
Qed.

Lemma p_divide i j : (i <= j)%nat -> (p i | p j).
Proof.
  intros H. exists (p (j - i)).
  rewrite <- Z.pow_add_r by lia. f_equal. lia.
Qed.

Lemma aligned_divide a k : a mod p k = 0 <-> (p k | a).
Proof. apply Z.mod_divide. pose proof (p_pos k). lia. Qed.

Lemma aligned_down a i j : (i <= j)%nat -> a mod p j = 0 -> a mod p i = 0.
Proof.
  rewrite !aligned_divide. intros Hij Hj.
  eapply Z.divide_trans; [by apply p_divide|done].
Qed.

Lemma aligned_add a k : a mod p k = 0 -> (a + p k) mod p k = 0.
Proof.
  rewrite !aligned_divide. intros H. apply Z.divide_add_r; [done|].
  apply Z.divide_refl.
Qed.

(** The address after a block that could not be twice as large for its
    alignment is aligned for twice the size. *)
Lemma aligned_next a k :
  a mod p k = 0 -> a mod p (S k) <> 0 -> (a + p k) mod p (S k) = 0.
Proof.
  rewrite !aligned_divide, p_succ. intros [q ->] Hn.
  destruct (Z.even q) eqn:Eq.
  - destruct Hn. apply Z.even_spec in Eq as [q' ->]. exists q'. lia.
  - assert (Z.odd q = true) as [q' ->]%Z.odd_spec
        by (by rewrite <- Z.negb_even, Eq).
    exists (q' + 1). lia.
Qed.

(** A sum of two powers of two is a power of two only when the two are
    equal. *)
Lemma p_sum a b c : p a + p b = p c -> a = b /\ c = S a.
Proof.
  intros H. pose proof (p_pos a). pose proof (p_pos b).
  assert (a = b) as <-.
  { destruct (lt_eq_lt_dec a b) as [[Hab| ->]|Hab]; [|done|]; exfalso.
    - pose proof (p_lt a b Hab).
      assert (b < c)%nat by (apply p_lt_inv; lia).
      assert (c < S b)%nat by (apply p_lt_inv; rewrite p_succ; lia). lia.
    - pose proof (p_lt b a Hab).
      assert (a < c)%nat by (apply p_lt_inv; lia).
      assert (c < S a)%nat by (apply p_lt_inv; rewrite p_succ; lia). lia. }
  split; [done|].
  assert (p c = p (S a)) as Hc by (rewrite p_succ; lia).
  apply Nat.le_antisymm; apply p_le_inv; lia.
Qed.

Lemma largest_block_spec k cur e :
  cur <= e ->
  (Netaddr.largest_block k cur e <= k)%nat /\
  cur mod p (Netaddr.largest_block k cur e) = 0 /\
  cur + p (Netaddr.largest_block k cur e) - 1 <= e /\
  forall j : nat,
    (Netaddr.largest_block k cur e < j <= k)%nat ->
    ~ (cur mod p j = 0 /\ cur + p j - 1 <= e).
Proof.
  intros Hle. induction k as [|k IH].
  - simpl. split; [lia|]. split; [by rewrite Z.mod_1_r|]. split; [lia|].
    intros j Hj. lia.
  - cbn [Netaddr.largest_block].
    destruct ((cur mod p (S k) =? 0) && (cur + p (S k) - 1 <=? e)) eqn:E.
    + apply andb_true_iff in E as [E1%Z.eqb_eq E2%Z.leb_le].
      split; [lia|]. split; [done|]. split; [done|]. intros j Hj. lia.
    + destruct IH as (IH1 & IH2 & IH3 & IH4).
      split; [lia|]. split; [done|]. split; [done|].
      intros j Hj [Hj1 Hj2].
      destruct (decide (j = S k)) as [->|Hne].
      * apply andb_false_iff in E as [E%Z.eqb_neq|E%Z.leb_gt]; lia.
      * apply (IH4 j); [lia|done].
Qed.

Lemma log2_nat r :
  0 < r -> p (Z.to_nat (Z.log2 r)) <= r < p (S (Z.to_nat (Z.log2 r))).
Proof.
  intros Hr. pose proof (Z.log2_nonneg r). pose proof (Z.log2_spec r Hr).
  rewrite Nat2Z.inj_succ, Z2Nat.id by done. done.
Qed.

(** Every iteration of the loop lowers the bound. *)
Lemma budget_step w cur e :
  0 <= cur -> cur <= e -> e < p w ->
  (budget w (cur + p (Netaddr.largest_block w cur e)) e < budget w cur e)%nat.
Proof.
  intros H0 Hle Hw.
  destruct (largest_block_spec w cur e Hle) as (Kw & Ka & Ke & Kmax).
  set (k := Netaddr.largest_block w cur e) in *.
  pose proof (log2_nat (e + 1 - cur) ltac:(lia)) as [HL1 HL2].
  set (L := Z.to_nat (Z.log2 (e + 1 - cur))) in *.
  pose proof (p_pos k) as Hpk.
  assert (k <= L)%nat as HkL.
  { assert (k < S L)%nat by (apply p_lt_inv; lia). lia. }
  assert (L <= w)%nat as HLw by (apply p_le_inv; lia).
  assert (budget w cur e = if (k <? L)%nat then (2 * w + 1 - k)%nat else (L + 1)%nat)
    as ->.
  { unfold budget. by replace (e <? cur) with false by (symmetry; apply Z.ltb_ge; lia). }
  unfold budget at 1.
  destruct (e <? cur + p k) eqn:Enext.
  { destruct (k <? L)%nat; lia. }
  apply Z.ltb_ge in Enext.
  destruct (largest_block_spec w (cur + p k) e Enext) as (Kw' & Ka' & Ke' & Kmax').
  set (k' := Netaddr.largest_block w (cur + p k) e) in *.
  pose proof (log2_nat (e + 1 - (cur + p k)) ltac:(lia)) as [HL1' HL2'].
  set (L' := Z.to_nat (Z.log2 (e + 1 - (cur + p k)))) in *.
  assert (L' <= L)%nat as HLL.
  { assert (L' < S L)%nat by (apply p_lt_inv; lia). lia. }
  destruct (k <? L)%nat eqn:EA.
  - apply Nat.ltb_lt in EA.
    destruct (k' <? L')%nat eqn:EA'; [|lia].
    apply Nat.ltb_lt in EA'.
    assert ((cur + p k) mod p (S k) = 0) as Hal.
    { apply aligned_next; [done|]. intros Hc.
      apply (Kmax (S k)); [lia|]. split; [done|].
      pose proof (p_le (S k) L ltac:(lia)). lia. }
    assert (k < k')%nat; [|lia].
    destruct (decide (k < k')%nat) as [|Hn]; [done|]. exfalso.
    apply (Kmax' (S k')); [lia|]. split.
    + apply (aligned_down _ (S k') (S k)); [lia|done].
    + pose proof (p_le (S k') L' ltac:(lia)). lia.
  - apply Nat.ltb_ge in EA. assert (k = L) as HkL' by lia.
    assert (L' < L)%nat as HLt.
    { apply p_lt_inv. rewrite p_succ in HL2. rewrite HkL' in *. lia. }
    replace (k' <? L')%nat with false; [lia|].
    symmetry. apply Nat.ltb_ge.
    destruct (decide (L' <= k')%nat) as [|Hn]; [done|]. exfalso.
    apply (Kmax' L'); [lia|]. split; [|lia].
    apply (aligned_down _ L' k); [lia|]. by apply aligned_add.
Qed.

Lemma budget_bound w cur e :
  cur <= e -> (budget w cur e <= 2 * w + 1)%nat.
Proof.
  intros Hle. unfold budget.
  replace (e <? cur) with false by (symmetry; apply Z.ltb_ge; lia).
  destruct (_ <? _)%nat eqn:E; [lia|].
  apply Nat.ltb_ge in E.
  destruct (largest_block_spec w cur e Hle) as (Kw & _). lia.
Qed.

Lemma budget_pos w cur e : cur <= e -> (1 <= budget w cur e)%nat.
Proof.
  intros Hle. unfold budget.
  replace (e <? cur) with false by (symmetry; apply Z.ltb_ge; lia).
  destruct (largest_block_spec w cur e Hle) as (Kw & _).
  destruct (_ <? _)%nat; lia.
Qed.

Lemma size_pos w c : 0 < Netaddr.size w c.
Proof. apply p_pos. Qed.

(** With fuel for the bound, the loop runs to the end of the range: its
    blocks follow one another from [cur] to [e], each is a block of the
    address space that ends at [e] or before, and each is the largest that
    starts where it does. *)
Lemma expand_spec w e fuel cur :
  0 <= cur -> e < p w -> cur <= e + 1 -> (budget w cur e <= fuel)%nat ->
  chain w cur (Netaddr.expand fuel w cur e) (e + 1) /\
  Forall (fun c => Netaddr.valid w c /\ Netaddr.last w c <= e /\ largest w e c)
    (Netaddr.expand fuel w cur e).
Proof.
  revert cur. induction fuel as [|fuel IH]; intros cur H0 Hw Hcur Hfuel.
  - simpl. split; [|constructor].
    destruct (decide (cur <= e)) as [Hle|]; [|lia].
    pose proof (budget_pos w cur e Hle). lia.
  - cbn [Netaddr.expand]. destruct (e <? cur) eqn:E.
    { apply Z.ltb_lt in E. split; [simpl; lia|constructor]. }
    apply Z.ltb_ge in E.
    destruct (largest_block_spec w cur e E) as (Kw & Ka & Ke & Kmax).
    pose proof (budget_step w cur e H0 E Hw) as Hstep.
    set (k := Netaddr.largest_block w cur e) in *.
    pose proof (p_pos k) as Hpk.
    set (c := {| Netaddr.first := cur; Netaddr.prefixlen := (w - k)%nat |}).
    assert (Netaddr.size w c = p k) as Hsize.
    { unfold Netaddr.size. simpl. by replace (w - (w - k))%nat with k by lia. }
    assert (Netaddr.last w c = cur + p k - 1) as Hlast.
    { unfold Netaddr.last. by rewrite Hsize. }
    destruct (IH (cur + p k)) as [IHc IHf]; [lia|done|lia|lia|].
    split.
    + simpl. split; [done|]. rewrite Hlast.
      by replace (cur + p k - 1 + 1) with (cur + p k) by lia.
    + constructor; [|done]. split; [|split].
      * unfold Netaddr.valid. rewrite Hlast, Hsize. simpl.
        split; [lia|]. split; [done|]. split; [lia|done].
      * lia.
      * intros j Hj. simpl in Hj. apply Kmax. lia.
Qed.

Lemma chain_le w from l to : chain w from l to -> from <= to.
Proof.
  revert from. induction l as [|c l IH]; simpl; intros from.
  - lia.
  - intros [<- Hc%IH]. pose proof (size_pos w c). unfold Netaddr.last in Hc. lia.
Qed.

(** The blocks of a chain hold the addresses from its start to its end, and
    no other. *)
Lemma chain_member w from l to a :
  chain w from l to ->
  (exists c, c ∈ l /\ Netaddr.member w c a) <-> from <= a < to.
Proof.
  revert from. induction l as [|c l IH]; simpl; intros from.
  - intros ->. split; [|lia]. intros (c & Hc & _). by apply elem_of_nil in Hc.
  - intros [<- Hc]. pose proof (chain_le _ _ _ _ Hc) as Hle.
    pose proof (size_pos w c) as Hs. specialize (IH _ Hc).
    unfold Netaddr.member, Netaddr.last in *. split.
    + intros (c' & [->|Hin]%elem_of_cons & Hm); [lia|].
      assert (Netaddr.first c + Netaddr.size w c - 1 + 1 <= a < to); [|lia].
      apply IH. by exists c'.
    + intros Ha.
      destruct (decide (a <= Netaddr.first c + Netaddr.size w c - 1)) as [|Hn].
      * exists c. split; [by left|lia].
      * destruct (proj2 IH) as (c' & Hin & Hm); [lia|].
        exists c'. split; [by right|done].
Qed.

Lemma chain_first_ge w from l to c :
  chain w from l to -> c ∈ l -> from <= Netaddr.first c.
Proof.
  revert from. induction l as [|c' l IH]; simpl; intros from.
  - intros _ H. by apply elem_of_nil in H.
  - intros [<- Hc] [->|Hin]%elem_of_cons; [lia|].
    specialize (IH _ Hc Hin). pose proof (size_pos w c').
    unfold Netaddr.last in IH. lia.
Qed.

(** The blocks of a chain are in increasing order and share no address. *)
Lemma chain_ordered w from l to i j ci cj :
  chain w from l to -> (i < j)%nat ->
  l !! i = Some ci -> l !! j = Some cj ->
  Netaddr.last w ci < Netaddr.first cj.
Proof.
  revert from i j. induction l as [|c l IH]; intros from i j; [done|].
  simpl. intros [_ Hc] Hij Hi Hj.
  destruct j as [|j]; [lia|]. simpl in Hj.
  destruct i as [|i]; simpl in Hi.
  - injection Hi as <-.
    pose proof (chain_first_ge _ _ _ _ cj Hc) as H.
    specialize (H ltac:(by eapply list_elem_of_lookup_2)). lia.
  - eapply IH; [exact Hc| |exact Hi|exact Hj]. lia.
Qed.

Lemma chain_adjacent w from l to i a b :
  chain w from l to -> l !! i = Some a -> l !! S i = Some b ->
  Netaddr.first b = Netaddr.last w a + 1.
Proof.
  revert from i. induction l as [|c l IH]; intros from i; [done|].
  simpl. intros [_ Hc] Hi Hj. destruct i as [|i]; simpl in Hi.
  - injection Hi as <-. destruct l as [|b' l]; [done|].
    simpl in Hj. injection Hj as ->. by destruct Hc as [-> _].
  - eapply IH; [exact Hc|exact Hi|exact Hj].
Qed.

(** A block that is the largest at its start is not half of a block of the
    range: no block holds just its addresses and those of the block after
    it. *)
Lemma largest_no_merge w e a b c :
  Netaddr.valid w a -> Netaddr.valid w b -> largest w e a ->
  Netaddr.last w b <= e ->
  Netaddr.first b = Netaddr.last w a + 1 ->
  ~ Netaddr.merges w c a b.
Proof.
  intros Ha Hb Hmax Hbe Hadj [Hc Hm].
  pose proof (size_pos w a) as Hsa. pose proof (size_pos w b) as Hsb.
  pose proof (size_pos w c) as Hsc.
  unfold Netaddr.member, Netaddr.last in *.
  assert (Netaddr.first c = Netaddr.first a) as Hfirst.
  { pose proof (proj1 (Hm (Netaddr.first c)) ltac:(lia)).
    pose proof (proj2 (Hm (Netaddr.first a)) ltac:(lia)). lia. }
  assert (Netaddr.first c + Netaddr.size w c
          = Netaddr.first b + Netaddr.size w b) as Hlast.
  { pose proof (proj1 (Hm (Netaddr.first c + Netaddr.size w c - 1)) ltac:(lia)).
    pose proof (proj2 (Hm (Netaddr.first b + Netaddr.size w b - 1)) ltac:(lia)).
    lia. }
  assert (Netaddr.size w a + Netaddr.size w b = Netaddr.size w c) as Hsum by lia.
  apply p_sum in Hsum as [Hab Hca].
  destruct Hc as (Hcw & _ & _ & Hcal). destruct Ha as (Haw & _).
  apply (Hmax (S (w - Netaddr.prefixlen a))); [lia|].
  unfold Netaddr.size in *. rewrite <- Hca. split; [by rewrite <- Hfirst|].
  lia.
Qed.

End Blocks.

(** The fuel of [iprange_to_cidrs] is enough for every range. *)
Lemma expand_enough w s e :
  0 <= s -> s <= e -> e < 2 ^ Z.of_nat w ->
  chain w s (Netaddr.iprange_to_cidrs w s e) (e + 1) /\
  Forall (fun c => Netaddr.valid w c /\ Netaddr.last w c <= e /\ largest w e c)
    (Netaddr.iprange_to_cidrs w s e).
Proof.
  intros H0 Hle Hw. apply expand_spec; [done|done|lia|].
  by apply budget_bound.
Qed.

(** C1: for a range of addresses of [w] bits, of 32 as of 128, that does
    not end before it starts, the expander gives blocks of that address
    space, in increasing order and without overlap, that hold the addresses
    of the range and no other, and of which no two neighbours can be merged
    into one block. *)
Theorem C1_range_decomposition (w : nat) (s e : Z) :
  0 <= s -> s <= e -> e < 2 ^ Z.of_nat w ->
  decomposes w s e (Netaddr.iprange_to_cidrs w s e).
Proof.
  intros H0 Hle Hw.
  destruct (expand_enough w s e H0 Hle Hw) as [Hchain Hall].
  set (l := Netaddr.iprange_to_cidrs w s e) in *.
  split; [|split; [|split]].
  - eapply Forall_impl; [exact Hall|]. by intros c (? & _).
  - intros a. rewrite (chain_member w s l (e + 1) a Hchain). lia.
  - intros i j ci cj. by apply chain_ordered with (from := s) (to := e + 1).
  - intros i a b Hi Hj [c Hc].
    rewrite Forall_lookup in Hall.
    destruct (Hall _ _ Hi) as (Ha & _ & Hmax).
    destruct (Hall _ _ Hj) as (Hb & Hbe & _).
    eapply largest_no_merge; [exact Ha|exact Hb|exact Hmax|exact Hbe| |exact Hc].
    by eapply chain_adjacent.
Qed.

Lemma C1_range_decomposition_witness :
  Netaddr.iprange_to_cidrs 32 16843026 16843028
  = [{| Netaddr.first := 16843026; Netaddr.prefixlen := 31 |};
     {| Netaddr.first := 16843028; Netaddr.prefixlen := 32 |}] /\
  decomposes 32 16843026 16843028
    (Netaddr.iprange_to_cidrs 32 16843026 16843028) /\
  decomposes 128 1 (2 ^ 128 - 2) (Netaddr.iprange_to_cidrs 128 1 (2 ^ 128 - 2)).
Proof.
  split; [by vm_compute|]. split.
  - apply C1_range_decomposition; by vm_compute.
  - apply C1_range_decomposition; by vm_compute.
Defined.

(** The expander on IPv4 text prints the blocks of the range between the
    two addresses, which are addresses of 32 bits. *)
Lemma digit_range a d : Netaddr.digit a = Some d -> 0 <= d <= 9.
Proof.
  unfold Netaddr.digit.
  destruct (_ && _) eqn:E; [|done]. intros [= <-].
  apply andb_true_iff in E as [?%Z.leb_le ?%Z.leb_le]. lia.
Qed.

Lemma decimal_go_nonneg s acc n :
  0 <= acc -> Netaddr.decimal_go acc s = Some n -> 0 <= n.
Proof.
  revert acc. induction s as [|a s IH]; simpl; intros acc Hacc.
  - intros [= <-]. done.
  - destruct (Netaddr.digit a) as [d|] eqn:E; [|done].
    apply digit_range in E. apply IH. lia.
Qed.

Lemma octet_range s n : Netaddr.octet s = Some n -> 0 <= n <= 255.
Proof.
  unfold Netaddr.octet. destruct (_ && _)%nat; [|done].
  destruct (Netaddr.decimal_go 0 s) as [m|] eqn:E; [|done].
  destruct (m <=? 255) eqn:E'; [|done]. intros [= <-].
  apply Z.leb_le in E'. apply decimal_go_nonneg in E; lia.
Qed.

Lemma parse_ipv4_range s a :
  Netaddr.parse_ipv4 s = Some a -> 0 <= a < 2 ^ Z.of_nat 32.
Proof.
  unfold Netaddr.parse_ipv4.
  destruct (Netaddr.split Text.dot s) as [|x1 [|x2 [|x3 [|x4 [|]]]]]; try done.
  destruct (Netaddr.octet x1) as [n1|] eqn:E1; [|done].
  destruct (Netaddr.octet x2) as [n2|] eqn:E2; [|done].
  destruct (Netaddr.octet x3) as [n3|] eqn:E3; [|done].
  destruct (Netaddr.octet x4) as [n4|] eqn:E4; [|done].
  intros [= <-].
  apply octet_range in E1, E2, E3, E4.
  change (2 ^ Z.of_nat 32) with 4294967296. lia.
Qed.

Lemma iprange_to_cidrs_v4_blocks start_ip end_ip s e :
  Netaddr.parse_ipv4 start_ip = Some s -> Netaddr.parse_ipv4 end_ip = Some e ->
  s <= e ->
  Netaddr.iprange_to_cidrs_v4 start_ip end_ip
  = Some (map Netaddr.format_cidr_v4 (Netaddr.iprange_to_cidrs 32 s e)) /\
  0 <= s /\ e < 2 ^ Z.of_nat 32.
Proof.
  intros Hs He Hle. split.
  - unfold Netaddr.iprange_to_cidrs_v4. rewrite Hs, He.
    by replace (s <=? e) with true by (symmetry; by apply Z.leb_le).
  - apply parse_ipv4_range in Hs, He. lia.
Qed.


(** * Further properties of the script *)

(** ** The events of a run *)

Section RunFacts.

Variable DB : Type.
Variable cursor_execute : statement -> DB -> option exn * DB.
Variable conn_commit : DB -> option exn * DB.
Variable iprange_to_cidrs : string -> string -> option (list string).

Local Abbreviation state := (state DB).
Local Abbreviation queryNoResults := (queryNoResults DB cursor_execute conn_commit).
Local Abbreviation flush := (flush DB cursor_execute conn_commit).
Local Abbreviation bulk_insert := (bulk_insert DB cursor_execute conn_commit).
Local Abbreviation expand_record := (expand_record DB iprange_to_cidrs).
Local Abbreviation while_line :=
  (while_line DB cursor_execute conn_commit iprange_to_cidrs).
Local Abbreviation insert_last_batch :=
  (insert_last_batch DB cursor_execute conn_commit).

(** A call of [queryNoResults] changes no variable of [main] and leaves the
    handler connected or not as it was. *)
Lemma queryNoResults_grows (P : event -> Prop) q (s : state) :
  P (Execute q) -> P Commit -> P LogQueryFailed -> P LogNotConnected ->
  grows P s (snd (queryNoResults q s)) /\
  same_locals s (snd (queryNoResults q s)) /\
  cursor (snd (queryNoResults q s)) = cursor s.
Proof.
  intros Hq Hc Hf Hn.
  unfold queryNoResults, try_except, execute, commit, bind, get, emit, modify,
    ret, raise.
  destruct (cursor s) eqn:Hcu; simpl.
  - destruct (cursor_execute q (store s)) as [[e1|] d1]; simpl.
    + split; [|by destruct e1].
      exists (Execute q :: if e1 is ProgrammingError then [LogQueryFailed] else []).
      destruct e1; simpl; rewrite <- ?app_assoc; split; try done;
        repeat constructor; done.
    + destruct (conn_commit d1) as [[e2|] d2]; simpl.
      * split; [|by destruct e2].
        exists (Execute q :: Commit
                  :: if e2 is ProgrammingError then [LogQueryFailed] else []).
        destruct e2; simpl; rewrite <- ?app_assoc; split; try done;
          repeat constructor; done.
      * split; [|done]. exists [Execute q; Commit]. rewrite <- ?app_assoc.
        split; [done|]. by repeat constructor.
  - split; [|done]. by apply (grows_one _ _ _ _ LogNotConnected).
Qed.

Lemma flush_grows (P : event -> Prop) (s : state) :
  P (Execute (upsert_statement DB s)) -> P Commit -> P LogQueryFailed ->
  P LogNotConnected -> P LogTryingAgain ->
  grows P s (snd (flush s)) /\
  same_locals s (snd (flush s)) /\
  cursor (snd (flush s)) = cursor s.
Proof.
  intros Hq Hc Hf Hn Ht.
  unfold flush, try_except, bind, get, ret.
  destruct (queryNoResults_grows P (upsert_statement DB s) s Hq Hc Hf Hn)
    as (H1 & Hl1 & Hcu1).
  destruct (queryNoResults (upsert_statement DB s) s) as [[x|e] s1]; [done|].
  simpl in H1, Hl1, Hcu1. unfold emit, modify. simpl.
  set (s2 := {| total_count := total_count s1; count := count s1;
                line_count := line_count s1; sql_values := sql_values s1;
                batch := batch s1; cursor := cursor s1; store := store s1;
                trace := trace s1 ++ [LogTryingAgain] |}).
  assert (same_locals s s2) as Hl2 by exact Hl1.
  assert (grows P s1 s2) as H12 by (by apply (grows_one _ _ _ _ LogTryingAgain)).
  rewrite (upsert_statement_locals _ _ _ Hl2).
  destruct (queryNoResults_grows P (upsert_statement DB s) s2 Hq Hc Hf Hn)
    as (H2 & Hl3 & Hcu3).
  assert (grows P s (snd (queryNoResults (upsert_statement DB s) s2)) /\
          same_locals s (snd (queryNoResults (upsert_statement DB s) s2)) /\
          cursor (snd (queryNoResults (upsert_statement DB s) s2)) = cursor s)
    as H.
  { split; [eauto using grows_trans|].
    split; [by eapply same_locals_trans|]. by rewrite Hcu3. }
  by destruct (queryNoResults (upsert_statement DB s) s2) as [[x|e'] s3].
Qed.

Lemma consistent_locals (s s' : state) :
  same_locals s s' -> consistent s -> consistent s'.
Proof.
  intros (_ & Hc & _ & Hv & Hb) [H1 H2]. unfold consistent.
  by rewrite Hc, Hv, Hb.
Qed.

Lemma upsert_statement_run (s : state) :
  consistent s -> batch s <> [] -> run_event (Execute (upsert_statement DB s)).
Proof. intros [_ Hv] Hb. simpl. by rewrite Hv. Qed.

Lemma flush_run (s : state) :
  consistent s -> batch s <> [] ->
  grows run_event s (snd (flush s)) /\
  same_locals s (snd (flush s)) /\ cursor (snd (flush s)) = cursor s.
Proof.
  intros Hcons Hb. apply flush_grows; try done. by apply upsert_statement_run.
Qed.

Lemma consistent_full (s : state) :
  consistent s -> 0 < count s -> batch s <> [].
Proof. intros [Hc _] Hpos Hb. rewrite Hb in Hc. simpl in Hc. lia. Qed.

Lemma bulk_insert_run (s : state) :
  consistent s ->
  grows run_event s (snd (bulk_insert s)) /\
  cursor (snd (bulk_insert s)) = cursor s /\
  (fst (bulk_insert s) = Ret tt ->
   consistent (snd (bulk_insert s)) /\ count (snd (bulk_insert s)) < 5000).
Proof.
  intros Hcons. rewrite bulk_insert_spec.
  destruct (5000 <=? count s) eqn:Hfull.
  - apply Z.leb_le in Hfull.
    assert (grows run_event s (bulk_announced s)) as H0.
    { eapply grows_one; [reflexivity|]. simpl. done. }
    destruct (flush_run (bulk_announced s)) as (H & Hl & Hcu);
      [exact Hcons|apply (consistent_full s Hcons); lia|].
    destruct (flush (bulk_announced s)) as [[[]|e] s1]; simpl in *.
    + split; [eauto using grows_trans|]. split; [done|]. intros _.
      split; [done|lia].
    + split; [eauto using grows_trans|]. by split.
  - apply Z.leb_gt in Hfull. simpl. split; [by apply grows_refl|].
    split; [done|]. intros _. by split.
Qed.

Lemma while_line_run lines (s : state) :
  consistent s -> count s < 5000 ->
  grows run_event s (snd (while_line lines s)) /\
  cursor (snd (while_line lines s)) = cursor s /\
  (fst (while_line lines s) = Ret tt ->
   consistent (snd (while_line lines s)) /\ count (snd (while_line lines s)) < 5000).
Proof.
  revert s. induction lines as [|line rest IH]; intros s Hcons Hlt.
  { simpl. split; [by apply grows_refl|]. by split. }
  destruct (String.length line =? 0)%nat eqn:Hne.
  { simpl. rewrite Hne. simpl. split; [by apply grows_refl|]. by split. }
  rewrite while_line_cons by done.
  destruct (record_rows iprange_to_cidrs line) as [rows|e] eqn:E.
  - destruct (expand_record_ret DB iprange_to_cidrs line rows s E)
      as (s1 & -> & _ & _ & (Ht1 & _ & Hcu1 & _) & Hcons1).
    specialize (Hcons1 Hcons).
    destruct (bulk_insert_run s1 Hcons1) as (H2 & Hcu2 & Hret2).
    destruct (bulk_insert s1) as [[[]|e] s2]; simpl in *.
    + destruct (Hret2 eq_refl) as [Hcons2 Hlt2].
      destruct (IH s2 Hcons2 Hlt2) as (H3 & Hcu3 & Hret3).
      split; [|split; [congruence|done]].
      eapply grows_trans; [by apply grows_refl|]. eauto using grows_trans.
    + split; [|split; [congruence|done]].
      eapply grows_trans; [by apply grows_refl|]. exact H2.
  - destruct (expand_record_raise DB iprange_to_cidrs line e s E)
      as (s1 & -> & (Ht1 & _ & Hcu1 & _)).
    simpl. split; [by apply grows_refl|]. by split.
Qed.

Lemma insert_last_batch_run (s : state) :
  consistent s -> count s < 5000 ->
  grows run_event s (snd (insert_last_batch s)) /\
  cursor (snd (insert_last_batch s)) = cursor s.
Proof.
  intros Hcons Hlt. rewrite insert_last_batch_spec.
  destruct (0 <? String.length (sql_values s))%nat eqn:Hlen;
    [|split; [by apply grows_refl|done]].
  assert (batch s <> []) as Hb.
  { intros Hb. destruct Hcons as [_ Hv]. rewrite Hb in Hv. simpl in Hv.
    by rewrite Hv in Hlen. }
  assert (0 < count s) as Hpos.
  { destruct Hcons as [Hc _]. rewrite Hc. destruct (batch s); [done|simpl; lia]. }
  destruct (flush_run (last_announced s)) as (H & _ & Hcu); [done|done|].
  split; [|done]. eapply grows_trans; [|exact H].
  eapply grows_one; [reflexivity|]. simpl. lia.
Qed.

(** A run that connects: its events before the closing are events of a run,
    and the connection is closed last, when the run returns, and not when it
    raises. *)
Lemma main_run lines (d : DB) :
  let r := main DB cursor_execute conn_commit None iprange_to_cidrs lines
             (initial d) in
  exists evs,
    Forall run_event evs /\
    trace (snd r) = evs ++ (if fst r is Ret _ then [Close] else []) /\
    cursor (snd r) = (if fst r is Ret _ then false else true).
Proof.
  intros r. subst r. rewrite main_spec. unfold bind.
  destruct (while_line_run lines (started d)) as (H1 & Hcu1 & Hret1);
    [done|simpl; lia|].
  destruct (while_line lines (started d)) as [[[]|e] s1]; simpl in *.
  2: { destruct H1 as (evs & -> & Hevs). exists evs. by rewrite app_nil_r. }
  destruct (Hret1 eq_refl) as [Hcons1 Hlt1].
  destruct (insert_last_batch_run s1 Hcons1 Hlt1) as (H2 & Hcu2).
  pose proof (grows_trans _ _ _ _ _ H1 H2) as (evs & Ht & Hevs).
  destruct (insert_last_batch s1) as [[[]|e] s2]; simpl in *.
  - exists evs. split; [done|].
    unfold close, bind, get, emit, modify, ret.
    replace (cursor s2) with true by congruence. simpl. by rewrite Ht.
  - exists evs. rewrite app_nil_r. split; [done|]. split; [done|congruence].
Qed.

End RunFacts.

(** X1: in a run, every statement handed to the cursor has at least one row
    and is the INSERT, the text of its rows with a comma between two rows,
    and the conflict clause; a bulk insert of the loop is announced with
    5000 rows or more, that of the last batch with at least one row and
    fewer than 5000. *)
Theorem statements_of_a_run DB cursor_execute conn_commit py_connect expander
  lines (d : DB) :
  Forall (fun e => e = Close \/ e = LogConnectFailed \/ run_event e)
    (trace (snd (main DB cursor_execute conn_commit py_connect expander lines
                   (initial d)))).
Proof.
  destruct py_connect as [e|].
  { unfold main, connectDb, bind, emit, modify, raise.
    destruct e; simpl; try (by constructor).
    constructor; [by right; left|constructor]. }
  destruct (main_run DB cursor_execute conn_commit expander lines d)
    as (evs & Hevs & -> & _).
  apply Forall_app. split.
  - eapply Forall_impl; [exact Hevs|]. auto.
  - destruct (fst _); [|constructor]. constructor; [by left|constructor].
Qed.

(** X2: the connection is closed when the run returns, as its last act, and
    is not closed when the run raises: after an exception of a record or of
    a flush the handler is left connected. *)
Theorem close_on_return_only DB cursor_execute conn_commit expander lines
  (d : DB) :
  let r := main DB cursor_execute conn_commit None expander lines (initial d) in
  (Close ∈ trace (snd r) <-> fst r = Ret tt) /\
  (fst r = Ret tt ->
   cursor (snd r) = false /\ exists evs, trace (snd r) = evs ++ [Close]) /\
  (forall e, fst r = Raise e -> cursor (snd r) = true).
Proof.
  intros r.
  destruct (main_run DB cursor_execute conn_commit expander lines d)
    as (evs & Hevs & Ht & Hcu).
  fold r in Ht, Hcu.
  assert (Close ∉ evs) as Hno.
  { intros Hin. rewrite Forall_forall in Hevs. exact (Hevs _ Hin). }
  split; [|split].
  - rewrite Ht. destruct (fst r) as [[]|e]; split; try done.
    + intros _. apply elem_of_app. right. by left.
    + rewrite app_nil_r. done.
  - intros Hr. rewrite Hr in Ht, Hcu. split; [done|]. by exists evs.
  - intros e Hr. by rewrite Hr in Hcu.
Qed.

Lemma close_on_return_only_witness :
  let r := main unit fail_execute accept_commit None Netaddr.iprange_to_cidrs_v4
             [dbip_line] (initial tt) in
  fst r = Raise DatabaseError /\ cursor (snd r) = true /\ Close ∉ trace (snd r).
Proof.
  intros r.
  destruct (close_on_return_only unit fail_execute accept_commit
              Netaddr.iprange_to_cidrs_v4 [dbip_line] tt) as (Hiff & _ & Hraise).
  fold r in Hiff, Hraise.
  assert (fst r = Raise DatabaseError) as Hr by (by vm_compute).
  split; [exact Hr|]. split; [exact (Hraise _ Hr)|].
  intros Hin. apply Hiff in Hin. rewrite Hr in Hin. discriminate.
Defined.

(** ** The counters and the rows sent *)

Section Counters.

Variable DB : Type.
Variable cursor_execute : statement -> DB -> option exn * DB.
Variable conn_commit : DB -> option exn * DB.
Variable iprange_to_cidrs : string -> string -> option (list string).

Local Abbreviation state := (state DB).
Local Abbreviation flush := (flush DB cursor_execute conn_commit).
Local Abbreviation bulk_insert := (bulk_insert DB cursor_execute conn_commit).
Local Abbreviation expand_record := (expand_record DB iprange_to_cidrs).
Local Abbreviation while_line :=
  (while_line DB cursor_execute conn_commit iprange_to_cidrs).
Local Abbreviation insert_last_batch :=
  (insert_last_batch DB cursor_execute conn_commit).

Lemma flush_locals (s : state) : same_locals s (snd (flush s)).
Proof. by apply (flush_grows DB cursor_execute conn_commit (fun _ => True)). Qed.

(** A loop that returns has read every line, counted it, and has every row
    in the total or in the batch. *)
Lemma while_line_counters lines (s s' : state) :
  while_line lines s = (Ret tt, s') -> consistent s ->
  exists rows,
    expanded_rows iprange_to_cidrs lines = Ret rows /\
    total_count s' + count s'
    = total_count s + count s + Z.of_nat (length rows) /\
    line_count s' = line_count s + Z.of_nat (length (lines_read lines)) /\
    consistent s'.
Proof.
  revert s. induction lines as [|line rest IH]; intros s Hw Hcons.
  { injection Hw as <-. exists []. simpl. repeat split; try lia; apply Hcons. }
  simpl expanded_rows. simpl lines_read.
  destruct (String.length line =? 0)%nat eqn:Hne.
  { simpl in Hw. rewrite Hne in Hw. injection Hw as <-. exists []. simpl.
    repeat split; try lia; apply Hcons. }
  rewrite while_line_cons in Hw by done.
  destruct (record_rows iprange_to_cidrs line) as [rows1|e] eqn:E.
  2: { destruct (expand_record_raise DB iprange_to_cidrs line e s E)
         as (s1 & H1 & _). by rewrite H1 in Hw. }
  destruct (expand_record_ret DB iprange_to_cidrs line rows1 s E)
    as (s1 & H1 & _ & Hc1 & (_ & _ & _ & Htc1 & Hlc1) & Hcons1).
  rewrite H1 in Hw. specialize (Hcons1 Hcons).
  destruct (bulk_insert s1) as [[[]|e] s2] eqn:E2; [|done].
  assert (consistent s2 /\ total_count s2 + count s2 = total_count s1 + count s1
          /\ line_count s2 = line_count s1 + 1) as (Hcons2 & Hsum2 & Hlc2).
  { rewrite bulk_insert_spec in E2. destruct (5000 <=? count s1).
    - pose proof (flush_locals (bulk_announced s1)) as (Htc & Hc & Hlc & _).
      destruct (flush (bulk_announced s1)) as [[[]|e] s3]; [|done].
      injection E2 as <-. simpl in *. split; [done|]. lia.
    - injection E2 as <-. simpl. split; [done|]. lia. }
  destruct (IH s2 Hw Hcons2) as (rows2 & -> & Hsum & Hlc & Hcons').
  exists (rows1 ++ rows2). split; [done|].
  rewrite length_app, Nat2Z.inj_add. simpl length. split; [lia|].
  split; [lia|done].
Qed.

End Counters.

(** X3: a run that returns has read every line of the file and made the
    rows of each; its total count is the number of these rows, and its line
    count is one more than the number of lines: the calls of [readline],
    that of the end of the file included. *)
Theorem counters_of_a_run DB cursor_execute conn_commit expander lines
  (d : DB) s' :
  main DB cursor_execute conn_commit None expander lines (initial d)
  = (Ret tt, s') ->
  exists rows,
    expanded_rows expander lines = Ret rows /\
    total_count s' = Z.of_nat (length rows) /\
    line_count s' = 1 + Z.of_nat (length (lines_read lines)).
Proof.
  rewrite main_spec. unfold bind.
  destruct (while_line _ _ _ _ lines (started d)) as [[[]|e] s1] eqn:E1; [|done].
  destruct (while_line_counters DB cursor_execute conn_commit expander lines
              (started d) s1 E1) as (rows & Hrows & Hsum & Hlc & Hcons1);
    [done|].
  simpl in Hsum, Hlc. rewrite insert_last_batch_spec.
  destruct (0 <? String.length (sql_values s1))%nat eqn:Hlen.
  - pose proof (flush_locals DB cursor_execute conn_commit (last_announced s1))
      as (Htc & _ & Hlc2 & _).
    destruct (flush _ _ _ (last_announced s1)) as [[[]|e] s2]; [|done].
    simpl in Htc, Hlc2.
    unfold close, bind, get, emit, modify, ret.
    destruct (cursor s2); intros [= <-]; exists rows; simpl;
      (split; [done|]); split; lia.
  - assert (count s1 = 0) as Hc0.
    { destruct Hcons1 as [Hc Hv].
      destruct (batch s1) as [|row rows']; [done|].
      assert (sql_values s1 <> EmptyString) as Hn.
      { rewrite Hv. intros H%format_batch_empty. done. }
      destruct (sql_values s1); [done|done]. }
    unfold close, bind, get, emit, modify, ret.
    destruct (cursor s1); intros [= <-]; exists rows; simpl;
      (split; [done|]); split; lia.
Qed.

Lemma counters_of_a_run_witness :
  let r := main unit refuse_execute accept_commit None
             Netaddr.iprange_to_cidrs_v4 [dbip_line; dbip_line] (initial tt) in
  fst r = Ret tt /\ total_count (snd r) = 4 /\ line_count (snd r) = 3.
Proof.
  intros r.
  assert (main unit refuse_execute accept_commit None
            Netaddr.iprange_to_cidrs_v4 [dbip_line; dbip_line] (initial tt)
          = (Ret tt, snd r)) as Hmain by (by vm_compute).
  destruct (counters_of_a_run _ _ _ _ _ _ _ Hmain) as (rows & Hrows & Htc & Hlc).
  split; [by vm_compute|]. split; [|exact Hlc].
  rewrite Htc. vm_compute in Hrows. by injection Hrows as <-.
Defined.

Lemma executed_app t u : executed (t ++ u) = executed t ++ executed u.
Proof. apply omap_app. Qed.

Lemma executed_cons e t : executed (e :: t) = executed [e] ++ executed t.
Proof. apply (executed_app [e] t). Qed.

Lemma executed_loud t : executed (loud t) = executed t.
Proof.
  unfold loud. induction t as [|e t IH]; [done|].
  rewrite (executed_cons e t). destruct (silent e) eqn:Es.
  - rewrite filter_cons_False by (by rewrite Es). rewrite IH. by destruct e.
  - rewrite filter_cons_True by done. by rewrite executed_cons, IH.
Qed.

Lemma rows_sent_app t u : rows_sent (t ++ u) = rows_sent t ++ rows_sent u.
Proof. unfold rows_sent. by rewrite executed_app, fmap_app, concat_app. Qed.

Section Sent.

Variable DB : Type.
Variable cursor_execute : statement -> DB -> option exn * DB.
Variable conn_commit : DB -> option exn * DB.
Variable iprange_to_cidrs : string -> string -> option (list string).

(** The driver raises nothing but [ProgrammingError]. *)
Hypothesis no_escape :
  forall q d, ~ escapes (fst (attempt cursor_execute conn_commit q d)).

Local Abbreviation state := (state DB).
Local Abbreviation flush := (flush DB cursor_execute conn_commit).
Local Abbreviation bulk_insert := (bulk_insert DB cursor_execute conn_commit).
Local Abbreviation expand_record := (expand_record DB iprange_to_cidrs).
Local Abbreviation while_line :=
  (while_line DB cursor_execute conn_commit iprange_to_cidrs).
Local Abbreviation insert_last_batch :=
  (insert_last_batch DB cursor_execute conn_commit).

Lemma flush_once (s : state) :
  cursor s = true ->
  fst (flush s) = Ret tt /\
  same_locals s (snd (flush s)) /\ cursor (snd (flush s)) = true /\
  rows_sent (trace (snd (flush s))) = rows_sent (trace s) ++ batch s.
Proof.
  intros Hcu.
  destruct (flush_spec DB cursor_execute conn_commit s Hcu)
    as (evs & Ht & Hl & Hcu' & Hcase).
  assert (loud evs = [Execute (upsert_statement DB s)] /\ fst (flush s) = Ret tt)
    as [Hloud Hr].
  { destruct (not_escapes _ (no_escape (upsert_statement DB s) (store s)))
      as [H|H]; rewrite H in Hcase; by destruct Hcase as (? & _ & ?). }
  repeat split; try apply Hl; try done.
  rewrite Ht, rows_sent_app. f_equal.
  unfold rows_sent. rewrite <- executed_loud, Hloud. simpl. by rewrite app_nil_r.
Qed.

Lemma bulk_insert_sent (s : state) :
  cursor s = true -> consistent s ->
  exists s', bulk_insert s = (Ret tt, s') /\
    consistent s' /\ cursor s' = true /\
    rows_sent (trace s') ++ batch s' = rows_sent (trace s) ++ batch s.
Proof.
  intros Hcu Hcons. rewrite bulk_insert_spec.
  destruct (5000 <=? count s).
  - destruct (flush_once (bulk_announced s) Hcu) as (Hr & Hl & Hcu' & Hsent).
    destruct (flush (bulk_announced s)) as [r s1]. simpl in *. subst r.
    eexists. split; [reflexivity|]. simpl. split; [done|]. split; [done|].
    rewrite Hsent, rows_sent_app. simpl.
    change (rows_sent [LogInserting _ _ _]) with (@nil geo_row).
    by rewrite !app_nil_r.
  - eexists. split; [reflexivity|]. by simpl.
Qed.

Lemma while_line_sent lines rows (s : state) :
  expanded_rows iprange_to_cidrs lines = Ret rows ->
  cursor s = true -> consistent s ->
  exists s', while_line lines s = (Ret tt, s') /\
    consistent s' /\ cursor s' = true /\
    rows_sent (trace s') ++ batch s' = rows_sent (trace s) ++ batch s ++ rows.
Proof.
  revert rows s. induction lines as [|line rest IH]; intros rows s Hrows Hcu Hcons.
  { injection Hrows as <-. exists s. by rewrite app_nil_r. }
  simpl in Hrows. destruct (String.length line =? 0)%nat eqn:Hne.
  { injection Hrows as <-. exists s. simpl. rewrite Hne. by rewrite app_nil_r. }
  destruct (record_rows iprange_to_cidrs line) as [rows1|] eqn:E1; [|done].
  destruct (expanded_rows iprange_to_cidrs rest) as [rows2|] eqn:E2; [|done].
  injection Hrows as <-. rewrite while_line_cons by done.
  destruct (expand_record_ret DB iprange_to_cidrs line rows1 s E1)
    as (s1 & -> & Hb1 & _ & (Ht1 & _ & Hcu1 & _) & Hcons1).
  destruct (bulk_insert_sent s1) as (s2 & -> & Hcons2 & Hcu2 & Hsent2);
    [congruence|by apply Hcons1|].
  destruct (IH rows2 s2 eq_refl Hcu2 Hcons2) as (s' & -> & Hcons' & Hcu' & Hsent').
  exists s'. split; [done|]. split; [done|]. split; [done|].
  rewrite Hsent', app_assoc, Hsent2, Hb1, Ht1. by rewrite <- !app_assoc.
Qed.

End Sent.

(** X4: when the driver raises nothing but [ProgrammingError] and every line
    of the file gives its rows, the run returns, and the rows of the
    statements it handed to the cursor, in order, are the rows of the lines,
    in order: every row is sent once, none is left in the last batch. *)
Theorem rows_sent_once DB cursor_execute conn_commit expander lines rows
  (d : DB) :
  (forall q d, ~ escapes (fst (attempt cursor_execute conn_commit q d))) ->
  expanded_rows expander lines = Ret rows ->
  let r := main DB cursor_execute conn_commit None expander lines (initial d) in
  fst r = Ret tt /\ rows_sent (trace (snd r)) = rows.
Proof.
  intros Hne Hrows r. subst r. rewrite main_spec. unfold bind.
  destruct (while_line_sent DB cursor_execute conn_commit expander Hne lines rows
              (started d) Hrows) as (s1 & -> & Hcons1 & Hcu1 & Hsent1);
    [done|done|].
  simpl in Hsent1. rewrite insert_last_batch_spec.
  assert (exists s2,
            (if (0 <? String.length (sql_values s1))%nat
             then flush DB cursor_execute conn_commit (last_announced s1)
             else (Ret tt, s1)) = (Ret tt, s2) /\
            cursor s2 = true /\ rows_sent (trace s2) = rows) as (s2 & -> & Hcu2 & Hs2).
  { destruct (0 <? String.length (sql_values s1))%nat eqn:Hlen.
    - destruct (flush_once DB cursor_execute conn_commit Hne (last_announced s1) Hcu1)
        as (Hr & _ & Hcu' & Hsent).
      destruct (flush _ _ _ (last_announced s1)) as [x s2]. simpl in *. subst x.
      exists s2. split; [done|]. split; [done|].
      rewrite Hsent, rows_sent_app. simpl.
      change (rows_sent [LogInsertingLast _ _ _]) with (@nil geo_row).
      by rewrite app_nil_r.
    - exists s1. split; [done|]. split; [done|].
      destruct Hcons1 as [_ Hv].
      destruct (batch s1) as [|row rows'] eqn:Hb; [by rewrite app_nil_r in Hsent1|].
      assert (sql_values s1 <> EmptyString) as Hn.
      { rewrite Hv. intros H%format_batch_empty. done. }
      destruct (sql_values s1); done. }
  unfold close, bind, get, emit, modify, ret. rewrite Hcu2. simpl.
  split; [done|]. rewrite rows_sent_app. simpl.
  change (rows_sent [Close]) with (@nil geo_row). by rewrite app_nil_r.
Qed.

Lemma rows_sent_once_witness :
  let r := main unit refuse_execute accept_commit None
             Netaddr.iprange_to_cidrs_v4 [dbip_line; dbip_line] (initial tt) in
  fst r = Ret tt /\ length (rows_sent (trace (snd r))) = 4%nat.
Proof.
  intros r.
  assert (forall q d,
            ~ escapes (fst (attempt refuse_execute accept_commit q d))) as Hne.
  { intros q d (e & [= <-] & He). done. }
  destruct (rows_sent_once unit refuse_execute accept_commit
              Netaddr.iprange_to_cidrs_v4 [dbip_line; dbip_line]
              (match expanded_rows Netaddr.iprange_to_cidrs_v4
                       [dbip_line; dbip_line] with
               | Ret rows => rows
               | Raise _ => []
               end) tt Hne) as [Hr Hs].
  { by vm_compute. }
  fold r in Hr, Hs. split; [exact Hr|]. rewrite Hs. by vm_compute.
Defined.

(** ** The edges of a run *)

(** X5: when the connection fails, the run raises the exception of the
    driver, whatever the file holds: no line is read, no statement is handed
    to the cursor, the database is as it was; the failure is logged when it
    is a [ProgrammingError] and not otherwise. *)
Theorem connect_failure DB cursor_execute conn_commit expander lines (d : DB) e :
  let r := main DB cursor_execute conn_commit (Some e) expander lines
             (initial d) in
  fst r = Raise e /\ store (snd r) = d /\ cursor (snd r) = false /\
  line_count (snd r) = 0 /\ executed (trace (snd r)) = [] /\
  trace (snd r) = if decide (e = ProgrammingError) then [LogConnectFailed] else [].
Proof. by destruct e. Qed.

(** X6: on a file without a line the run returns: nothing is handed to the
    cursor, no insert is announced, the connection is closed and the
    database is as it was. *)
Theorem empty_file DB cursor_execute conn_commit expander lines (d : DB) :
  lines_read lines = [] ->
  main DB cursor_execute conn_commit None expander lines (initial d)
  = (Ret tt, set_cursor DB false
               {| total_count := 0; count := 0; line_count := 1;
                  sql_values := EmptyString; batch := []; cursor := true;
                  store := d; trace := [Close] |}).
Proof.
  intros Hl. rewrite main_spec. unfold bind.
  assert (while_line DB cursor_execute conn_commit expander lines (started d)
          = (Ret tt, started d)) as ->.
  { destruct lines as [|line rest]; [done|]. simpl in *.
    by destruct (String.length line =? 0)%nat. }
  reflexivity.
Qed.

Lemma empty_file_witness :
  fst (main unit fail_execute accept_commit None Netaddr.iprange_to_cidrs_v4 []
         (initial tt)) = Ret tt.
Proof.
  by rewrite (empty_file unit fail_execute accept_commit
                Netaddr.iprange_to_cidrs_v4 [] tt eq_refl).
Defined.

(** X7: after [close] the handler is not connected: a second [close] does
    nothing, and [queryNoResults] logs that, returns [None] and hands
    nothing to the driver. *)
Theorem use_after_close DB cursor_execute conn_commit q (s : state DB) :
  let s1 := snd (close DB s) in
  fst (close DB s) = Ret tt /\ cursor s1 = false /\
  close DB s1 = (Ret tt, s1) /\
  fst (queryNoResults DB cursor_execute conn_commit q s1) = Ret None /\
  store (snd (queryNoResults DB cursor_execute conn_commit q s1)) = store s /\
  trace (snd (queryNoResults DB cursor_execute conn_commit q s1))
  = trace s1 ++ [LogNotConnected].
Proof.
  unfold close, queryNoResults, bind, get, emit, modify, ret.
  destruct (cursor s) eqn:E; simpl; rewrite ?E; simpl; repeat split; done.
Qed.

(** X8: a call of [queryNoResults] on a connected handler hands the
    statement to the cursor once; it commits exactly when [execute] raised
    nothing; it returns [True] exactly when neither [execute] nor [commit]
    raised, [None] exactly when one of them raised a [ProgrammingError],
    which it logs, and raises what either raised otherwise: it never raises
    a [ProgrammingError]. *)
Theorem queryNoResults_outcome DB cursor_execute conn_commit q (s : state DB) :
  cursor s = true ->
  let r := queryNoResults DB cursor_execute conn_commit q s in
  let a := attempt cursor_execute conn_commit q (store s) in
  (exists evs,
     trace (snd r) = trace s ++ Execute q :: evs /\
     executed evs = [] /\
     (Commit ∈ evs <-> fst (cursor_execute q (store s)) = None) /\
     (LogQueryFailed ∈ evs <-> fst a = Some ProgrammingError)) /\
  store (snd r) = snd a /\
  (fst r = Ret (Some true) <-> fst a = None) /\
  (fst r = Ret None <-> fst a = Some ProgrammingError) /\
  (forall e, fst r = Raise e <-> fst a = Some e /\ e <> ProgrammingError).
Proof.
  intros Hcu.
  unfold queryNoResults, attempt, try_except, execute, commit, bind, get, emit,
    modify, ret, raise.
  rewrite Hcu. simpl.
  destruct (cursor_execute q (store s)) as [[e1|] d1]; simpl.
  - split.
    { exists (if e1 is ProgrammingError then [LogQueryFailed] else []).
      destruct e1; simpl; rewrite <- ?app_assoc;
        (split; [done|]); (split; [done|]); split; split;
        try done; try set_solver. }
    destruct e1; simpl; (split; [done|]); repeat split;
      try done; try naive_solver.
  - destruct (conn_commit d1) as [[e2|] d2]; simpl.
    + split.
      { exists (Commit :: if e2 is ProgrammingError then [LogQueryFailed] else []).
        destruct e2; simpl; rewrite <- ?app_assoc;
          (split; [done|]); (split; [done|]); split; split;
          try done; try set_solver. }
      destruct e2; simpl; (split; [done|]); repeat split;
        try done; try naive_solver.
    + split.
      { exists [Commit]. rewrite <- ?app_assoc.
        (split; [done|]); (split; [done|]); split; split;
          try done; try set_solver. }
      (split; [done|]); repeat split; try done; try naive_solver.
Qed.

Lemma queryNoResults_outcome_witness :
  let r := queryNoResults unit refuse_execute accept_commit
             {| stmt_text := "SELECT 1"; stmt_rows := [] |} (started tt) in
  fst r = Ret None /\ Commit ∉ trace (snd r).
Proof.
  intros r.
  destruct (queryNoResults_outcome unit refuse_execute accept_commit
              {| stmt_text := "SELECT 1"; stmt_rows := [] |} (started tt)
              eq_refl) as ((evs & Ht & _ & Hc & _) & _ & _ & Hnone & _).
  fold r in Ht, Hnone. split; [by apply Hnone|].
  rewrite Ht. simpl. intros [?|Hin]%elem_of_cons; [done|].
  by apply Hc in Hin.
Defined.

(** ** The lines *)

Lemma rstrip_snoc c s : Text.rstrip c (Text.snoc s c) = Text.rstrip c s.
Proof.
  unfold Text.snoc. induction s as [|a s IH].
  - simpl. unfold Text.ascii_eqb. by rewrite Ascii.eqb_refl.
  - rewrite str_app_cons. simpl. by rewrite IH.
Qed.

(** X9: a line gives the same record with and without its final newline, so
    that the last line of a file may lack it. *)
Theorem final_newline DB expander line (s : state DB) :
  stripped_line (Text.snoc line Text.newline) = stripped_line line /\
  record_rows expander (Text.snoc line Text.newline) = record_rows expander line /\
  expand_record DB expander (Text.snoc line Text.newline) s
  = expand_record DB expander line s.
Proof.
  assert (stripped_line (Text.snoc line Text.newline) = stripped_line line) as H.
  { unfold stripped_line. by rewrite rstrip_snoc. }
  split; [done|]. unfold record_rows, expand_record. by rewrite H.
Qed.

(** X10: a record of fewer than two fields, such as that of a blank line,
    and a record of fewer than eight fields whose range has a block, raise
    the index error: nothing is logged and nothing reaches the database. *)
Theorem short_record DB expander line r (s : state DB) :
  Csv.read_record (stripped_line line) = Some r ->
  (length r < 2)%nat \/
  ((length r < 8)%nat /\
   exists r0 r1 net nets,
     r !! 0%nat = Some r0 /\ r !! 1%nat = Some r1 /\
     expander r0 r1 = Some (net :: nets)) ->
  fst (expand_record DB expander line s) = Raise IndexError /\
  same_frame s (snd (expand_record DB expander line s)).
Proof.
  intros Hr Hshort.
  assert (record_rows expander line = Raise IndexError) as E.
  { unfold record_rows. rewrite Hr. destruct Hshort as [Hlen|(Hlen & Hex)].
    - destruct (r !! 0%nat) as [r0|] eqn:E0; [|done].
      destruct (r !! 1%nat) as [r1|] eqn:E1; [|done].
      apply lookup_lt_Some in E1. lia.
    - destruct Hex as (r0 & r1 & net & nets & -> & -> & ->). simpl.
      destruct (make_row (addr_type r0) net r) as [row|e] eqn:Erow.
      + apply make_row_ret in Erow as (? & ? & ? & ? & r7 & _ & _ & _ & _ & H7 & _).
        apply lookup_lt_Some in H7. lia.
      + by apply make_row_raise in Erow as [-> _]. }
  destruct (expand_record_raise DB expander line IndexError s E) as (s' & -> & Hf).
  done.
Qed.

Lemma short_record_witness :
  fst (expand_record unit Netaddr.iprange_to_cidrs_v4
         (String Text.newline EmptyString) (started tt)) = Raise IndexError.
Proof.
  refine (proj1 (short_record unit Netaddr.iprange_to_cidrs_v4
                   (String Text.newline EmptyString) [] (started tt) _ _)).
  - reflexivity.
  - left. simpl. lia.
Defined.

(** ** The CSV reader on plain lines *)

Section CsvPlain.
Import Csv.

Lemma split_cons c a s :
  Netaddr.split c (String a s)
  = if Text.ascii_eqb a c then EmptyString :: Netaddr.split c s
    else prepend (String a EmptyString) (Netaddr.split c s).
Proof.
  simpl. destruct (Text.ascii_eqb a c); [done|].
  by destruct (Netaddr.split c s).
Qed.

Lemma split_nonempty c s : Netaddr.split c s <> [].
Proof.
  destruct s as [|a s]; [done|]. rewrite split_cons.
  destruct (Text.ascii_eqb a c); [done|]. by destruct (Netaddr.split c s).
Qed.

Lemma prepend_prepend f g l :
  l <> [] -> prepend f (prepend g l) = prepend (f +:+ g) l.
Proof. destruct l as [|h t]; [done|]. intros _. simpl. by rewrite str_app_assoc. Qed.

(** Outside quotes the reader cuts the line at the commas. *)
Lemma parse_chars_plain line r :
  in_field r ->
  Text.all_chars plain line = true ->
  (N.of_nat (String.length (field r) + String.length line) <= field_limit)%N ->
  exists r',
    parse_chars r line = Some r' /\
    (line = EmptyString -> r' = r) /\
    (line <> EmptyString -> state r' = START_FIELD \/ state r' = IN_FIELD) /\
    fields r' ++ [field r']
    = fields r ++ prepend (field r) (Netaddr.split delimiter line).
Proof.
  revert r. induction line as [|c line IH]; intros r Hst Hplain Hlim.
  { exists r. simpl. rewrite str_app_empty_r. by repeat split. }
  simpl in Hplain. apply andb_true_iff in Hplain as [Hc Hplain].
  unfold plain in Hc. apply andb_true_iff in Hc as [Heol Hq].
  apply negb_true_iff in Heol, Hq.
  assert (exists r1,
            parse_process_char r c = Some r1 /\
            (state r1 = START_FIELD \/ state r1 = IN_FIELD) /\
            (N.of_nat (String.length (field r1) + String.length line)
             <= field_limit)%N /\
            fields r1 ++ prepend (field r1) (Netaddr.split delimiter line)
            = fields r ++ prepend (field r) (Netaddr.split delimiter (String c line)))
    as (r1 & Hstep & Hst1 & Hlim1 & Hfields).
  { rewrite split_cons.
    assert ((field_limit <=? N.of_nat (String.length (field r)))%N = false) as Hfit.
    { apply N.leb_gt. simpl in Hlim. lia. }
    unfold parse_process_char, parse_add_char.
    destruct (Text.ascii_eqb c delimiter) eqn:Hd.
    - exists (parse_save_field r START_FIELD).
      split; [by destruct Hst as [->|[->| ->]]; rewrite Heol, ?Hq, ?Hd|].
      split; [by left|]. split; [simpl in *; lia|].
      simpl. rewrite <- app_assoc. simpl.
      destruct (Netaddr.split delimiter line) eqn:E;
        [by destruct (split_nonempty delimiter line)|].
      simpl. by rewrite str_app_empty_r.
    - exists {| state := IN_FIELD; field := Text.snoc (field r) c;
                fields := fields r |}.
      split; [by destruct Hst as [->|[->| ->]]; rewrite Heol, ?Hq, ?Hd, Hfit|].
      split; [by right|]. split.
      { simpl. unfold Text.snoc. rewrite str_length_app. simpl in *. lia. }
      simpl. f_equal. unfold Text.snoc.
      by rewrite prepend_prepend by apply split_nonempty. }
  destruct (IH r1) as (r' & Hparse & _ & Hst' & Hf');
    [unfold in_field; tauto|done|done|].
  exists r'. simpl. rewrite Hstep. split; [done|]. split; [done|].
  split.
  - intros _. destruct line as [|c' line'].
    + injection Hparse as <-. done.
    + by apply Hst'.
  - rewrite Hf'. destruct line as [|c' line'].
    + simpl in Hfields |- *. rewrite <- Hfields. by rewrite str_app_empty_r.
    + exact Hfields.
Qed.

End CsvPlain.

(** X11: on a line that is not empty, without quote character and without
    line break, and within the field limit, the reader gives the pieces of
    the line between its commas, as [line.split(',')] does; on the empty
    line it gives no field at all, where [split] gives one empty piece. *)
Theorem reader_splits_at_commas line :
  line <> EmptyString ->
  Text.all_chars plain line = true ->
  (N.of_nat (String.length line) <= Csv.field_limit)%N ->
  Csv.read_record line = Some (Netaddr.split Csv.delimiter line) /\
  Csv.read_record EmptyString = Some [] /\
  Netaddr.split Csv.delimiter EmptyString = [EmptyString].
Proof.
  intros Hne Hplain Hlim. split; [|done].
  destruct (parse_chars_plain line Csv.parse_reset) as (r & Hparse & _ & Hst & Hf);
    [by left|done|done|].
  unfold Csv.read_record. rewrite Hparse. simpl in Hf.
  assert (Csv.fields r ++ [Csv.field r] = Netaddr.split Csv.delimiter line) as <-.
  { rewrite Hf. destruct (Netaddr.split Csv.delimiter line) eqn:E; [|done].
    by destruct (split_nonempty Csv.delimiter line). }
  unfold Csv.parse_process_eol.
  by destruct (Hst Hne) as [-> | ->].
Qed.

Lemma reader_splits_at_commas_witness :
  Csv.read_record "1.1.1.18,1.1.1.20,NA,US,CA,Example City,37.0,-122.0"
  = Some ["1.1.1.18"; "1.1.1.20"; "NA"; "US"; "CA"; "Example City"; "37.0";
          "-122.0"].
Proof.
  refine (proj1 (reader_splits_at_commas
                   "1.1.1.18,1.1.1.20,NA,US,CA,Example City,37.0,-122.0" _ _ _));
    by vm_compute.
Defined.

Section CsvTotal.
Import Csv.

Lemma process_char_total r c :
  is_eol c = false -> state r <> EAT_CRNL ->
  (N.of_nat (String.length (field r)) < field_limit)%N ->
  exists r1,
    parse_process_char r c = Some r1 /\ state r1 <> EAT_CRNL /\
    (String.length (field r1) <= S (String.length (field r)))%nat.
Proof.
  intros Heol Hst Hlim.
  assert ((field_limit <=? N.of_nat (String.length (field r)))%N = false) as Hfit
      by (by apply N.leb_gt).
  assert (forall st, st <> EAT_CRNL ->
            exists r1, parse_add_char r st c = Some r1 /\ state r1 <> EAT_CRNL /\
              (String.length (field r1) <= S (String.length (field r)))%nat)
    as Hadd.
  { intros st Hne. unfold parse_add_char. rewrite Hfit. eexists.
    split; [done|]. split; [done|]. simpl. unfold Text.snoc.
    rewrite str_length_app. simpl. lia. }
  assert (forall st, st <> EAT_CRNL ->
            exists r1, Some (parse_save_field r st) = Some r1 /\
              state r1 <> EAT_CRNL /\
              (String.length (field r1) <= S (String.length (field r)))%nat)
    as Hsave.
  { intros st Hne. eexists. split; [done|]. split; [done|]. simpl. lia. }
  assert (forall st, st <> EAT_CRNL ->
            exists r1, Some (set_state r st) = Some r1 /\
              state r1 <> EAT_CRNL /\
              (String.length (field r1) <= S (String.length (field r)))%nat)
    as Hset.
  { intros st Hne. eexists. split; [done|]. split; [done|]. simpl. lia. }
  unfold parse_process_char. rewrite Heol.
  destruct (state r); try done;
    destruct (Text.ascii_eqb c quotechar), (Text.ascii_eqb c delimiter);
    first [by apply Hadd | by apply Hsave | by apply Hset].
Qed.

Lemma parse_chars_total line r :
  Text.all_chars (fun c => negb (is_eol c)) line = true ->
  state r <> EAT_CRNL ->
  (N.of_nat (String.length (field r) + String.length line) <= field_limit)%N ->
  exists r', parse_chars r line = Some r'.
Proof.
  revert r. induction line as [|c line IH]; intros r Hl Hst Hlim; [by exists r|].
  simpl in Hl. apply andb_true_iff in Hl as [Hc%negb_true_iff Hl].
  destruct (process_char_total r c Hc Hst) as (r1 & Hstep & Hst1 & Hlen1);
    [simpl in Hlim; lia|].
  simpl. rewrite Hstep. apply IH; [done|done|]. simpl in Hlim. lia.
Qed.

End CsvTotal.

(** X12: the reader raises no error on a line without a line break inside
    that is within the field limit: the CSV error of the script comes from
    fields of more than 131072 characters and from line breaks in a line
    only. *)
Theorem reader_never_fails line :
  Text.all_chars (fun c => negb (Csv.is_eol c)) line = true ->
  (N.of_nat (String.length line) <= Csv.field_limit)%N ->
  exists r, Csv.read_record line = Some r.
Proof.
  intros Hl Hlim.
  destruct (parse_chars_total line Csv.parse_reset Hl) as (r & Hr); [done|done|].
  unfold Csv.read_record. rewrite Hr.
  destruct (Csv.state (Csv.parse_process_eol r)); eauto.
Qed.

Lemma reader_never_fails_witness :
  exists r, Csv.read_record (stripped_line spec_line) = Some r.
Proof. apply reader_never_fails; by vm_compute. Defined.

(** ** The other methods of the handler *)

Section HandlerFacts.
Import Handler.

Variable DB : Type.
Variable R : Type.
Variable cursor_execute : string -> DB -> option exn * DB.
Variable cursor_fetchmany : N -> DB -> (exn + list R) * DB.

Local Abbreviation handler := (handler DB).
Local Abbreviation run := (run DB cursor_execute).
Local Abbreviation create := (create DB cursor_execute).
Local Abbreviation createTable := (createTable DB cursor_execute).
Local Abbreviation createTable_shadowed := (createTable_shadowed DB cursor_execute).
Local Abbreviation fetch_all := (fetch_all DB R cursor_fetchmany).
Local Abbreviation query := (query DB R cursor_execute cursor_fetchmany).

Lemma statements_app t u : statements (t ++ u) = statements t ++ statements u.
Proof. apply omap_app. Qed.

Lemma run_spec sql (h : handler) :
  fst (run sql h) = fst (cursor_execute sql (h_store h)) /\
  h_store (snd (run sql h)) = snd (cursor_execute sql (h_store h)) /\
  h_cursor (snd (run sql h)) = h_cursor h /\
  h_calls (snd (run sql h)) = h_calls h ++ [CursorExecute sql].
Proof. unfold Handler.run. by destruct (cursor_execute sql (h_store h)). Qed.

(** The loop of [query] only fetches: whatever it gives, the calls it adds
    are [fetchmany(size=10000)], and the handler stays as connected as it
    was. *)
Lemma fetch_all_calls fuel : forall rows (h : handler) r h',
  fetch_all fuel rows h = Some (r, h') ->
  h_cursor h' = h_cursor h /\
  exists k, h_calls h' = h_calls h ++ replicate k (Fetchmany fetch_size).
Proof.
  induction fuel as [|fuel IH]; intros rows h r h'; simpl; [done|].
  destruct (cursor_fetchmany fetch_size (h_store h)) as [[e|result] d].
  - intros [= <- <-]. split; [done|]. by exists 1%nat.
  - destruct (0 <? length result)%nat.
    + intros (Hc & k & Hk)%IH. simpl in Hc, Hk. split; [done|].
      exists (S k). by rewrite Hk, <- app_assoc.
    + intros [= <- <-]. split; [done|]. by exists 1%nat.
Qed.

Lemma log_not_in_fetches k :
  ~ In (Log QueryFailed) (replicate k (Fetchmany fetch_size)).
Proof. induction k as [|k IH]; simpl; [tauto|]. by intros [?|?]. Qed.

(** A cursor that hands out the rows of a result set in order. *)
Variable pending : DB -> list R.

Hypothesis fetchmany_pending : forall n d,
  exists d', cursor_fetchmany n d = (inr (take (N.to_nat n) (pending d)), d') /\
             pending d' = drop (N.to_nat n) (pending d).

Lemma batches_step n len :
  (0 < n)%nat -> (0 < len)%nat ->
  ((len + n - 1) / n = S ((len - n + n - 1) / n))%nat.
Proof.
  intros Hn Hl. destruct (Nat.le_gt_cases len n) as [Hle|Hgt].
  - replace (len - n)%nat with 0%nat by lia.
    rewrite (Nat.div_small (0 + n - 1) n) by lia.
    replace (len + n - 1)%nat with ((len - 1) + 1 * n)%nat by lia.
    rewrite Nat.div_add by lia. rewrite Nat.div_small by lia. lia.
  - replace (len + n - 1)%nat with ((len - n + n - 1) + 1 * n)%nat by lia.
    rewrite Nat.div_add by lia. lia.
Qed.

Lemma fetch_all_spec fuel : forall rows (h : handler),
  (length (pending (h_store h)) < fuel)%nat ->
  exists h',
    fetch_all fuel rows h = Some (Ret (rows ++ pending (h_store h)), h') /\
    pending (h_store h') = [] /\
    h_calls h'
    = h_calls h
      ++ replicate (S ((length (pending (h_store h)) + N.to_nat fetch_size - 1)
                       / N.to_nat fetch_size))
           (Fetchmany fetch_size).
Proof.
  remember (N.to_nat fetch_size) as n eqn:En.
  assert (Hn : (0 < n)%nat) by (subst n; unfold fetch_size; lia).
  induction fuel as [|fuel IH]; intros rows h Hf; [lia|].
  cbn [Handler.fetch_all].
  destruct (fetchmany_pending fetch_size (h_store h)) as (d & -> & Hd).
  rewrite <- En in *.
  destruct (pending (h_store h)) as [|x l] eqn:Hp.
  - rewrite take_nil. cbn [length Nat.ltb Nat.leb]. eexists. split; [by rewrite app_nil_r|].
    cbn [h_store h_calls].
    split; [by rewrite Hd, drop_nil|].
    rewrite Nat.div_small by lia. done.
  - destruct n as [|n]; [lia|].
    cbn [take length Nat.ltb Nat.leb].
    set (h1 := {| h_cursor := h_cursor h; h_store := d;
                  h_calls := h_calls h ++ [Fetchmany fetch_size] |}).
    destruct (IH (rows ++ x :: take n l) h1) as (h' & Hq & He & Hcalls).
    { subst h1. cbn [h_store]. rewrite Hd. cbn [drop]. rewrite length_drop. simpl in Hf. lia. }
    exists h'. subst h1. cbn [h_store h_calls] in Hq, Hcalls. rewrite Hd in Hq, Hcalls. cbn [drop] in Hq, Hcalls.
    rewrite Hq. split.
    { by rewrite <- app_assoc, <- app_comm_cons, take_drop. }
    split; [done|]. rewrite Hcalls, <- app_assoc. f_equal.
    rewrite length_drop.
    rewrite (batches_step (S n) (S (length l))) by lia.
    replace (S (length l) - S n)%nat with (length l - n)%nat by lia.
    done.
Qed.

End HandlerFacts.

(** X13: [createTable] on a connected handler sends the DROP statement, if
    asked to, before the schema, and does not send the schema when the DROP
    raised; it returns [True] exactly when no statement raised, [False] when
    one raised a [ProgrammingError], and lets any other exception through;
    on a handler that is not connected it returns [False] and sends
    nothing. *)
Theorem createTable_outcome DB cursor_execute tableName tableSchema
  dropIfExists (h : Handler.handler DB) :
  let r := Handler.createTable DB cursor_execute tableName tableSchema
             dropIfExists h in
  let dropped := cursor_execute (Handler.drop_table tableName) (Handler.h_store h) in
  let failed :=
    Handler.create DB cursor_execute tableName tableSchema dropIfExists h in
  (Handler.h_cursor h = false ->
   r = (Ret false, Handler.log DB Handler.NotConnected h)) /\
  (Handler.h_cursor h = true ->
   (exists calls,
      Handler.h_calls (snd r) = Handler.h_calls h ++ calls /\
      Handler.statements calls
      = if dropIfExists then
          if fst dropped is None then [Handler.drop_table tableName; tableSchema]
          else [Handler.drop_table tableName]
        else [tableSchema]) /\
   (fst r = Ret true <-> fst failed = None) /\
   (fst r = Ret false <-> fst failed = Some ProgrammingError) /\
   (forall e, fst r = Raise e <-> fst failed = Some e /\ e <> ProgrammingError)).
Proof.
  intros r dropped failed. subst r dropped failed. split.
  { intros Hc. unfold Handler.createTable. by rewrite Hc. }
  intros Hc. unfold Handler.createTable. rewrite Hc. simpl. split.
  - unfold Handler.create, Handler.run.
    destruct dropIfExists.
    + destruct (cursor_execute (Handler.drop_table tableName) (Handler.h_store h))
        as [[e1|] d1]; simpl.
      * exists (Handler.CursorExecute (Handler.drop_table tableName)
                :: if e1 is ProgrammingError
                   then [Handler.Log Handler.CreateFailed] else []).
        destruct e1; simpl; rewrite <- ?app_assoc; by split.
      * destruct (cursor_execute tableSchema d1) as [[e2|] d2]; simpl.
        -- exists (Handler.CursorExecute (Handler.drop_table tableName)
                   :: Handler.CursorExecute tableSchema
                   :: if e2 is ProgrammingError
                      then [Handler.Log Handler.CreateFailed] else []).
           destruct e2; simpl; rewrite <- ?app_assoc; by split.
        -- exists [Handler.CursorExecute (Handler.drop_table tableName);
                   Handler.CursorExecute tableSchema].
           rewrite <- ?app_assoc. by split.
    + destruct (cursor_execute tableSchema (Handler.h_store h)) as [[e2|] d2];
        simpl.
      * exists (Handler.CursorExecute tableSchema
                :: if e2 is ProgrammingError
                   then [Handler.Log Handler.CreateFailed] else []).
        destruct e2; simpl; rewrite <- ?app_assoc; by split.
      * exists [Handler.CursorExecute tableSchema]. by split.
  - destruct (Handler.create DB cursor_execute tableName tableSchema
                dropIfExists h) as [[e|] h1]; simpl.
    + destruct e; simpl; (split; [done|]); (split; [done|]); intros e0;
        (split; [intros [= <-]; by split | by intros [[= <-] ?]]) ||
        (split; [done | intros [[= <-] ?]; done]).
    + split; [done|]. split; [done|]. intros e0. split; [done|by intros [? _]].
Qed.

Lemma createTable_outcome_witness :
  let refuse_drop (sql : string) (d : unit) : option exn * unit :=
    (if String.eqb sql (Handler.drop_table "geo_ip")
     then Some ProgrammingError else None, d) in
  let h := {| Handler.h_cursor := true; Handler.h_store := tt;
              Handler.h_calls := [] |} in
  let r := Handler.createTable unit refuse_drop "geo_ip" "CREATE TABLE geo_ip ()"
             true h in
  fst r = Ret false /\
  exists calls,
    Handler.h_calls (snd r) = calls /\
    Handler.statements calls = ["DROP TABLE IF EXISTS geo_ip"].
Proof.
  intros refuse_drop h r.
  destruct (proj2 (createTable_outcome unit refuse_drop "geo_ip"
                     "CREATE TABLE geo_ip ()" true h) eq_refl)
    as ((calls & Hcalls & Hst) & _ & Hfalse & _).
  fold r in Hcalls, Hfalse. split; [by apply Hfalse|].
  exists calls. split; [exact Hcalls|exact Hst].
Defined.

(** X14: the two definitions of [createTable] do the same to the handler
    and to the database, and return the same, but for a statement that
    raises a [ProgrammingError]: there the first, which the second replaces,
    returns [True], and the second [False]. *)
Theorem createTable_shadowed_differs DB cursor_execute tableName tableSchema
  dropIfExists (h : Handler.handler DB) :
  let r1 := Handler.createTable_shadowed DB cursor_execute tableName tableSchema
              dropIfExists h in
  let r2 := Handler.createTable DB cursor_execute tableName tableSchema
              dropIfExists h in
  let failed :=
    Handler.create DB cursor_execute tableName tableSchema dropIfExists h in
  snd r1 = snd r2 /\
  (fst r1 <> fst r2 <->
   Handler.h_cursor h = true /\ fst failed = Some ProgrammingError) /\
  (fst r1 <> fst r2 -> fst r1 = Ret true /\ fst r2 = Ret false).
Proof.
  intros r1 r2 failed. subst r1 r2 failed.
  unfold Handler.createTable_shadowed, Handler.createTable.
  destruct (Handler.h_cursor h); simpl.
  2: { split; [done|]. split; [|done]. split; [done|]. by intros [? _]. }
  destruct (Handler.create DB cursor_execute tableName tableSchema
              dropIfExists h) as [[e|] h1]; simpl.
  - destruct e; simpl; (split; [done|]); split; try done;
      split; try done; try (by intros [_ ?]).
  - split; [done|]. split; [|done]. split; [done|]. by intros [_ ?].
Qed.

(** X15: [query] on a connected handler, when the statement is accepted and
    the cursor hands out the rows of the result set in order, returns all of
    them, in order, whatever their number: it asks for 10000 rows at a time
    and stops at the first empty answer, one call more than there are
    batches of 10000. *)
Theorem query_returns_all_rows DB R cursor_execute cursor_fetchmany
  (pending : DB -> list R) fuel sql (h : Handler.handler DB) d1 :
  (forall n d,
     exists d', cursor_fetchmany n d = (inr (take (N.to_nat n) (pending d)), d') /\
                pending d' = drop (N.to_nat n) (pending d)) ->
  Handler.h_cursor h = true ->
  cursor_execute sql (Handler.h_store h) = (None, d1) ->
  (length (pending d1) < fuel)%nat ->
  exists h',
    Handler.query DB R cursor_execute cursor_fetchmany fuel sql h
    = Some (Ret (Some (pending d1)), h') /\
    pending (Handler.h_store h') = [] /\
    Handler.h_calls h'
    = Handler.h_calls h
      ++ Handler.CursorExecute sql
         :: replicate (S ((length (pending d1) + N.to_nat 10000 - 1)
                          / N.to_nat 10000))
              (Handler.Fetchmany 10000).
Proof.
  intros Hfetch Hc Hx Hfuel. unfold Handler.query, Handler.run.
  rewrite Hc, Hx. simpl.
  destruct (fetch_all_spec DB R cursor_fetchmany pending Hfetch fuel []
              {| Handler.h_cursor := true; Handler.h_store := d1;
                 Handler.h_calls :=
                   Handler.h_calls h ++ [Handler.CursorExecute sql] |})
    as (h' & Hq & He & Hcalls); [done|].
  exists h'. simpl in Hq, Hcalls. rewrite Hq. split; [done|]. split; [done|].
  by rewrite Hcalls, <- app_assoc.
Qed.

Lemma query_returns_all_rows_witness :
  let fetchmany (n : N) (d : list nat) : (exn + list nat) * list nat :=
    (inr (take (N.to_nat n) d), drop (N.to_nat n) d) in
  let execute (sql : string) (d : list nat) : option exn * list nat :=
    (None, seq 0 3) in
  let h := {| Handler.h_cursor := true; Handler.h_store := [];
              Handler.h_calls := [] |} in
  exists h',
    Handler.query (list nat) nat execute fetchmany 4 "SELECT 1" h
    = Some (Ret (Some [0; 1; 2]%nat), h') /\
    Handler.h_store h' = [] /\
    Handler.h_calls h'
    = [Handler.CursorExecute "SELECT 1"; Handler.Fetchmany 10000;
       Handler.Fetchmany 10000].
Proof.
  intros fetchmany execute h.
  destruct (query_returns_all_rows (list nat) nat execute fetchmany id 4
              "SELECT 1" h (seq 0 3)) as (h' & Hq & He & Hcalls).
  - intros n d. by exists (drop (N.to_nat n) d).
  - reflexivity.
  - reflexivity.
  - simpl. lia.
  - exists h'. split; [exact Hq|]. split; [exact He|]. exact Hcalls.
Defined.

(** X16: on a connected handler [query] logs [query failed] exactly when it
    returns [None], which is when the statement or a fetch raised a
    [ProgrammingError]: the rows fetched before are not returned.  Any other
    exception leaves [query] as it is, and the handler stays connected. *)
Theorem query_outcome DB R cursor_execute cursor_fetchmany fuel sql
  (h : Handler.handler DB) r h' :
  Handler.h_cursor h = true ->
  Handler.query DB R cursor_execute cursor_fetchmany fuel sql h = Some (r, h') ->
  Handler.h_cursor h' = true /\
  (forall e, r = Raise e -> e <> ProgrammingError) /\
  exists calls,
    Handler.h_calls h' = Handler.h_calls h ++ Handler.CursorExecute sql :: calls /\
    (r = Ret None <-> In (Handler.Log Handler.QueryFailed) calls).
Proof.
  intros Hc. unfold Handler.query, Handler.run. rewrite Hc. simpl.
  destruct (cursor_execute sql (Handler.h_store h)) as [[e|] d1].
  - intros [= Hq]. destruct e; simpl in Hq; injection Hq as <- <-; simpl;
      (split; [done|]); (split; [by intros ? [= <-]|]);
      ((exists [Handler.Log Handler.QueryFailed]; rewrite <- app_assoc;
        split; [done|]; split; [by left|done])
       || (exists []; split; [done|]; split; [done|by intros []])).
  - destruct (Handler.fetch_all DB R cursor_fetchmany fuel []
                {| Handler.h_cursor := true; Handler.h_store := d1;
                   Handler.h_calls :=
                     Handler.h_calls h ++ [Handler.CursorExecute sql] |})
      as [[r2 h2]|] eqn:Hf; [|done].
    apply fetch_all_calls in Hf as (Hc2 & k & Hk). simpl in Hc2, Hk.
    rewrite <- app_assoc in Hk. simpl in Hk.
    destruct r2 as [rows|e].
    + intros [= <- <-]. split; [done|]. split; [done|].
      exists (replicate k (Handler.Fetchmany Handler.fetch_size)).
      split; [done|]. split; [done|]. by intros ?%log_not_in_fetches.
    + intros [= Hq]. destruct e; simpl in Hq; injection Hq as <- <-; simpl;
        (split; [done|]); (split; [by intros ? [= <-]|]);
        ((exists (replicate k (Handler.Fetchmany Handler.fetch_size)
                  ++ [Handler.Log Handler.QueryFailed]);
          rewrite Hk, <- app_assoc; split; [done|]; split; [|done];
          intros _; apply in_or_app; right; by left)
         || (exists (replicate k (Handler.Fetchmany Handler.fetch_size));
             split; [done|]; split; [done|by intros ?%log_not_in_fetches])).
Qed.

Lemma query_outcome_witness :
  let fetchmany (n : N) (d : list nat) : (exn + list nat) * list nat :=
    match d with
    | [] => (inl ProgrammingError, [])
    | _ => (inr (take (N.to_nat n) d), drop (N.to_nat n) d)
    end in
  let execute (sql : string) (d : list nat) : option exn * list nat :=
    (None, seq 0 3) in
  let h := {| Handler.h_cursor := true; Handler.h_store := [];
              Handler.h_calls := [] |} in
  let r := Handler.query (list nat) nat execute fetchmany 4 "SELECT 1" h in
  exists h', r = Some (Ret None, h') /\
             In (Handler.Log Handler.QueryFailed) (Handler.h_calls h').
Proof.
  intros fetchmany execute h r.
  assert (Hr : r = Some (Ret None,
                         {| Handler.h_cursor := true; Handler.h_store := [];
                            Handler.h_calls :=
                              [Handler.CursorExecute "SELECT 1";
                               Handler.Fetchmany 10000; Handler.Fetchmany 10000;
                               Handler.Log Handler.QueryFailed] |}))
    by reflexivity.
  destruct (query_outcome (list nat) nat execute fetchmany 4 "SELECT 1" h _ _
              eq_refl Hr) as (_ & _ & calls & Hcalls & Hnone).
  eexists. split; [exact Hr|]. rewrite Hcalls. right. by apply Hnone.
Defined.
